(** * PLCrashReporter: DWARF encoded pointers and LEB128 integers

    A shallow embedding of [Source/PLCrashAsyncDwarfPrivate.c]: the GNU
    eh_frame pointer state, the encoded-pointer decoder
    [plcrash_async_dwarf_read_gnueh_ptr], the two LEB128 decoders and the
    fixed-width reader [pl_dwarf_read_umax64], followed by the properties
    of these functions.

    C integers are values of [Z] with the wrap-around of their type written
    out.  The out-parameters [result] and [size] are cells of a [store],
    which also records every request made to the memory object, in order. *)

From Stdlib Require Import ZArith List Bool Lia.
From Stdlib Require Import Strings.Byte.
From Equations Require Import Equations.
Import ListNotations.
Local Open Scope Z_scope.

(** ** Machine integers *)

(** Conversion to the unsigned type of [w] bits. *)
Definition uint (w x : Z) : Z := x mod 2 ^ w.

(** Conversion to the signed (two's complement) type of [w] bits. *)
Definition sint (w x : Z) : Z := (x + 2 ^ (w - 1)) mod 2 ^ w - 2 ^ (w - 1).

Definition uint8_t : Z -> Z := uint 8.
Definition uint16_t : Z -> Z := uint 16.
Definition uint32_t : Z -> Z := uint 32.
Definition uint64_t : Z -> Z := uint 64.
Definition int16_t : Z -> Z := sint 16.
Definition int32_t : Z -> Z := sint 32.
Definition int64_t : Z -> Z := sint 64.

(** [unsigned int], the type of the LEB128 bit shift. *)
Definition unsigned_int : Z -> Z := uint 32.

(** ** Error codes *)

(** Modelled from the spec: [plcrash_error_t], an enumeration declared in a
    header outside this file. These are the four outcomes the spec lists
    (success, unsupported, invalid, not found) under the names the C file
    returns them by. *)
Inductive plcrash_error_t : Type :=
| PLCRASH_ESUCCESS
| PLCRASH_ENOTSUP
| PLCRASH_EINVAL
| PLCRASH_ENOTFOUND.

(** ** DW_EH_PE_t *)

(** Modelled from the spec: the pointer encodings of [DW_EH_PE_t], declared
    in a header outside this file. The spec puts the base-address class in
    bits 4 to 6 (mask [0x70]) and the representation in bits 0 to 3 (mask
    [0x0F]), with a flag for indirection and the reserved value "omit"; the
    values are the ones of the Linux Standard Base Core Specification 4.1,
    section 10.5, which the decoder names as its format. *)
Definition DW_EH_PE_absptr : Z := 0x00.
Definition DW_EH_PE_uleb128 : Z := 0x01.
Definition DW_EH_PE_udata2 : Z := 0x02.
Definition DW_EH_PE_udata4 : Z := 0x03.
Definition DW_EH_PE_udata8 : Z := 0x04.
Definition DW_EH_PE_sleb128 : Z := 0x09.
Definition DW_EH_PE_sdata2 : Z := 0x0a.
Definition DW_EH_PE_sdata4 : Z := 0x0b.
Definition DW_EH_PE_sdata8 : Z := 0x0c.
Definition DW_EH_PE_pcrel : Z := 0x10.
Definition DW_EH_PE_textrel : Z := 0x20.
Definition DW_EH_PE_datarel : Z := 0x30.
Definition DW_EH_PE_funcrel : Z := 0x40.
Definition DW_EH_PE_aligned : Z := 0x50.
Definition DW_EH_PE_indirect : Z := 0x80.
Definition DW_EH_PE_omit : Z := 0xff.

(** ** The memory object *)

(** Modelled from the spec: [plcrash_async_mobject_t], which is implemented
    outside this file. It is a read-only view of a range of the target's
    memory: the bytes [mobj_data], the first of which lies at the
    task-relative address [mobj_task_address]. *)
Record plcrash_async_mobject_t : Type := {
  mobj_task_address : Z;
  mobj_data : list byte
}.

(** Modelled from the spec: [plcrash_async_mobject_remap_address]. It gives
    the [length] bytes that start at [address + offset] if and only if that
    entire range lies within the mapped region, and NULL ([None]) otherwise;
    it never succeeds in part. *)
Definition plcrash_async_mobject_remap_address
    (mobj : plcrash_async_mobject_t) (address offset length : Z)
  : option (list byte) :=
  let first := address + offset in
  let mapped := Z.of_nat (List.length (mobj_data mobj)) in
  if (0 <=? length)
     && (mobj_task_address mobj <=? first)
     && (first + length <=? mobj_task_address mobj + mapped)
  then Some (firstn (Z.to_nat length)
               (skipn (Z.to_nat (first - mobj_task_address mobj)) (mobj_data mobj)))
  else None.

(** One request to the memory object: the arguments of a call of
    [plcrash_async_mobject_remap_address]. *)
Record mobject_access : Type := {
  access_address : Z;
  access_offset : Z;
  access_length : Z
}.

(** A byte as a [uint8_t]. *)
Definition byte_value (b : byte) : Z := Z.of_N (Byte.to_N b).

(** [*p] for a [uint8_t *p] into the memory object. *)
Definition load_uint8 (p : list byte) : Z :=
  match p with
  | b :: _ => byte_value b
  | [] => 0
  end.

(** The value of an object of several bytes as the host reads it. The
    targets of the library are little-endian: the first byte is the least
    significant one. *)
Fixpoint load_uint (p : list byte) : Z :=
  match p with
  | [] => 0
  | b :: rest => byte_value b + 256 * load_uint rest
  end.

(** Modelled from the spec: [plcrash_async_byteorder_t], the byte-order
    table, declared outside this file. It has one swap function per width;
    a read of one byte is not swapped. *)
Record plcrash_async_byteorder_t : Type := {
  swap16 : Z -> Z;
  swap32 : Z -> Z;
  swap64 : Z -> Z
}.

(** [plcrash_async_dwarf_gnueh_ptr_state_t], with the fields that
    [plcrash_async_dwarf_gnueh_ptr_state_init] assigns. *)
Record plcrash_async_dwarf_gnueh_ptr_state_t : Type := {
  address_size : Z;
  frame_section_base : Z;
  frame_section_vm_addr : Z;
  pc_rel_base : Z;
  text_base : Z;
  data_base : Z;
  func_base : Z
}.

(** ** Output cells and the trace of requests *)

(** What a call can change or leave behind: the cells that its [result] and
    [size] parameters point to, and the requests made to the memory object
    so far (the latest one last). *)
Record store : Type := {
  st_result : Z;
  st_size : Z;
  st_reads : list mobject_access
}.

Definition set_size (s : store) (v : Z) : store :=
  {| st_result := st_result s; st_size := v; st_reads := st_reads s |}.

Definition set_reads (s : store) (l : list mobject_access) : store :=
  {| st_result := st_result s; st_size := st_size s; st_reads := l |}.

(** The request that a call of the remap function adds to the trace. *)
Definition requested (reads : list mobject_access) (address offset length : Z)
  : list mobject_access :=
  reads ++ [{| access_address := address; access_offset := offset;
               access_length := length |}].

Section Decoder.

(** The width in bits of [pl_vm_address_t], [pl_vm_size_t] and [pl_vm_off_t].
    The typedefs are in a header outside this file, and the decoder itself
    notes that the width differs between platforms. *)
Variable vm_bits : Z.

Definition pl_vm_address_t : Z -> Z := uint vm_bits.
Definition pl_vm_size_t : Z -> Z := uint vm_bits.
Definition pl_vm_off_t : Z -> Z := sint vm_bits.

(** Modelled from the spec: the limits of the three types, which are macros
    of the same header: the largest address and the range of the signed
    offsets. *)
Definition PL_VM_ADDRESS_MAX : Z := 2 ^ vm_bits - 1.
Definition PL_VM_OFF_MAX : Z := 2 ^ (vm_bits - 1) - 1.
Definition PL_VM_OFF_MIN : Z := - 2 ^ (vm_bits - 1).

(** Modelled from the spec: the reserved address that stands for "no base
    configured", a macro of the same header; it is taken to be the largest
    address. *)
Definition PL_VM_ADDRESS_INVALID : Z := PL_VM_ADDRESS_MAX.

(** ** The LEB128 decoders *)

(** How control leaves the [while] loop of a LEB128 decoder: by a [return]
    in its body, or past its end with the last value of [p] (NULL when the
    loop condition failed, the fetched byte after a [break]). *)
Inductive leb128_exit : Type :=
| leb128_return (err : plcrash_error_t)
| leb128_leave (p : option (list byte)).

(** The locals of a LEB128 decoder and the cells it writes. *)
Record leb128_vars : Type := {
  leb_shift : Z;
  leb_offset : Z;
  leb_result : Z;
  leb_reads : list mobject_access
}.

(** [*result |= ((uint64_t) (byte & 0x7f)) << shift], for a result cell of
    the type [as_result] converts to. *)
Definition leb128_or (as_result : Z -> Z) (result byte shift : Z) : Z :=
  as_result (Z.lor (uint64_t result) (uint64_t (Z.shiftl (Z.land byte 0x7f) shift))).

(** What is left of the loop: the distance of [shift], an [unsigned int],
    from 63. Each turn of the loop that goes on takes 7 from it. *)
Definition leb128_measure (shift : Z) : nat :=
  Z.to_nat ((63 - shift) mod 2 ^ 32).

(** The loop that the two decoders share word for word. [shift] and [offset]
    are its counters and [result] is the content of the result cell. *)
Equations leb128_loop (as_result : Z -> Z) (mobj : plcrash_async_mobject_t)
    (location shift offset result : Z) (reads : list mobject_access)
  : leb128_exit * leb128_vars
  by wf (leb128_measure shift) lt :=
leb128_loop as_result mobj location shift offset result reads
  with plcrash_async_mobject_remap_address mobj location offset 1 := {
  | None =>
      (leb128_leave None,
       {| leb_shift := shift; leb_offset := offset; leb_result := result;
          leb_reads := requested reads location offset 1 |})
  | Some p with Z.eq_dec (Z.land (load_uint8 p) 0x80) 0 := {
    | left _ =>
        (leb128_leave (Some p),
         {| leb_shift := unsigned_int (shift + 7);
            leb_offset := pl_vm_off_t (offset + 1);
            leb_result := leb128_or as_result result (load_uint8 p) shift;
            leb_reads := requested reads location offset 1 |})
    | right _ with Z_lt_ge_dec (unsigned_int (shift + 7)) 64 := {
      | right _ =>
          (leb128_return PLCRASH_ENOTSUP,
           {| leb_shift := unsigned_int (shift + 7);
              leb_offset := pl_vm_off_t (offset + 1);
              leb_result := leb128_or as_result result (load_uint8 p) shift;
              leb_reads := requested reads location offset 1 |})
      | left _ =>
          leb128_loop as_result mobj location
            (unsigned_int (shift + 7))
            (pl_vm_off_t (offset + 1))
            (leb128_or as_result result (load_uint8 p) shift)
            (requested reads location offset 1) } } }.
Next Obligation.
  unfold leb128_measure, unsigned_int, uint in *.
  change (2 ^ 32) with 4294967296 in *.
  pose proof (Z.mod_pos_bound (shift + 7) 4294967296 ltac:(lia)) as Hb.
  pose proof (Z.div_mod (shift + 7) 4294967296 ltac:(lia)) as Hd.
  assert (Hm : (63 - shift) mod 4294967296
               = 63 - (shift + 7) mod 4294967296 + 7).
  { symmetry.
    apply Z.mod_unique with (q := - ((shift + 7) / 4294967296)); lia. }
  rewrite Hm.
  rewrite (Z.mod_small (63 - (shift + 7) mod 4294967296)) by lia.
  lia.
Qed.

(** [plcrash_async_dwarf_read_uleb128]: [result] is a [uint64_t] cell. *)
Definition plcrash_async_dwarf_read_uleb128
    (mobj : plcrash_async_mobject_t) (location : Z) (s : store)
  : plcrash_error_t * store :=
  match leb128_loop uint64_t mobj location 0 0 0 (st_reads s) with
  | (leb128_return err, v) =>
      (err, {| st_result := leb_result v; st_size := st_size s;
               st_reads := leb_reads v |})
  | (leb128_leave None, v) =>
      (PLCRASH_EINVAL,
       {| st_result := leb_result v; st_size := st_size s;
          st_reads := leb_reads v |})
  | (leb128_leave (Some _), v) =>
      (PLCRASH_ESUCCESS,
       {| st_result := leb_result v; st_size := pl_vm_size_t (leb_offset v);
          st_reads := leb_reads v |})
  end.

(** [plcrash_async_dwarf_read_sleb128]: [result] is an [int64_t] cell, and
    the sign is extended after the loop. *)
Definition plcrash_async_dwarf_read_sleb128
    (mobj : plcrash_async_mobject_t) (location : Z) (s : store)
  : plcrash_error_t * store :=
  match leb128_loop int64_t mobj location 0 0 0 (st_reads s) with
  | (leb128_return err, v) =>
      (err, {| st_result := leb_result v; st_size := st_size s;
               st_reads := leb_reads v |})
  | (leb128_leave None, v) =>
      (PLCRASH_EINVAL,
       {| st_result := leb_result v; st_size := st_size s;
          st_reads := leb_reads v |})
  | (leb128_leave (Some p), v) =>
      let result :=
        if (leb_shift v <? 64) && negb (Z.land (load_uint8 p) 0x40 =? 0)
        then int64_t (Z.lor (uint64_t (leb_result v))
                            (uint64_t (- uint64_t (Z.shiftl 1 (leb_shift v)))))
        else leb_result v in
      (PLCRASH_ESUCCESS,
       {| st_result := result; st_size := pl_vm_size_t (leb_offset v);
          st_reads := leb_reads v |})
  end.

(** ** Fixed-width reads *)

(** [pl_dwarf_read_umax64]: [Some] of the value stored to [dest] when the C
    function returns true, [None] when it returns false. The members of the
    union are read from the remapped bytes in host order. *)
Definition pl_dwarf_read_umax64 (mobj : plcrash_async_mobject_t)
    (byteorder : plcrash_async_byteorder_t)
    (base_addr offset data_size : Z) (reads : list mobject_access)
  : option Z * list mobject_access :=
  match plcrash_async_mobject_remap_address mobj base_addr offset data_size with
  | None => (None, requested reads base_addr offset data_size)
  | Some data =>
      (match data_size with
       | 1 => Some (uint64_t (load_uint8 data))
       | 2 => Some (uint64_t (uint16_t (swap16 byteorder (load_uint data))))
       | 4 => Some (uint64_t (uint32_t (swap32 byteorder (load_uint data))))
       | 8 => Some (uint64_t (swap64 byteorder (load_uint data)))
       | _ => None
       end,
       requested reads base_addr offset data_size)
  end.

(** Modelled from the spec: [plcrash_async_mobject_read_uint16], [_uint32]
    and [_uint64], which are implemented outside this file. Each performs
    one bounds-checked remap of its width at [base_addr + offset]; when the
    bytes cannot be obtained the failure is "invalid data", otherwise the
    value is the host-order value passed through the swap function of the
    width. [width] is 2, 4 or 8 and [swap] the matching function. *)
Definition plcrash_async_mobject_read_uint (width : Z) (swap : Z -> Z)
    (mobj : plcrash_async_mobject_t) (base_addr offset : Z)
    (reads : list mobject_access)
  : plcrash_error_t * Z * list mobject_access :=
  match plcrash_async_mobject_remap_address mobj base_addr offset width with
  | None => (PLCRASH_EINVAL, 0, requested reads base_addr offset width)
  | Some input =>
      (PLCRASH_ESUCCESS, uint (8 * width) (swap (load_uint input)),
       requested reads base_addr offset width)
  end.

Definition plcrash_async_mobject_read_uint16 mobj (byteorder : plcrash_async_byteorder_t) :=
  plcrash_async_mobject_read_uint 2 (swap16 byteorder) mobj.
Definition plcrash_async_mobject_read_uint32 mobj (byteorder : plcrash_async_byteorder_t) :=
  plcrash_async_mobject_read_uint 4 (swap32 byteorder) mobj.
Definition plcrash_async_mobject_read_uint64 mobj (byteorder : plcrash_async_byteorder_t) :=
  plcrash_async_mobject_read_uint 8 (swap64 byteorder) mobj.

(** ** The GNU eh_frame pointer state *)

(** [plcrash_async_dwarf_gnueh_ptr_state_init] stores its arguments as they
    are. What it asserts of [address_size] is [valid_address_size] below. *)
Definition plcrash_async_dwarf_gnueh_ptr_state_init
    (address_size frame_section_base frame_section_vm_addr
     pc_rel_base text_base data_base func_base : Z)
  : plcrash_async_dwarf_gnueh_ptr_state_t :=
  {| address_size := address_size;
     frame_section_base := frame_section_base;
     frame_section_vm_addr := frame_section_vm_addr;
     pc_rel_base := pc_rel_base;
     text_base := text_base;
     data_base := data_base;
     func_base := func_base |}.

(** [address_size == 1 || address_size == 2 || address_size == 4 ||
    address_size == 8] *)
Definition valid_address_size (address_size : Z) : bool :=
  (address_size =? 1) || (address_size =? 2)
  || (address_size =? 4) || (address_size =? 8).

(** ** The encoded-pointer decoder *)

(** A step of the decoder either returns from the function, with an error
    code and the store as it is then, or goes on. *)
Definition step (A : Type) : Type := (plcrash_error_t * store) + A.

(** [(vm_addr + (state->address_size-1)) & ~(state->address_size)], the
    value of [vm_aligned] in the [DW_EH_PE_aligned] case. *)
Definition gnueh_vm_aligned (vm_addr address_size : Z) : Z :=
  pl_vm_address_t
    (Z.land (pl_vm_address_t (vm_addr + (address_size - 1)))
            (Z.lnot address_size)).

(** The first [switch], on [encoding & 0x70]: the base address, the location
    to read from and, for [DW_EH_PE_aligned], the bytes skipped in [size].
    The assertion [location >= state->frame_section_base] is a contract on
    the caller and has no part in the value computed. *)
Definition gnueh_ptr_base (location encoding : Z)
    (state : plcrash_async_dwarf_gnueh_ptr_state_t) (s : store)
  : step (Z * Z * store) :=
  let class := Z.land encoding 0x70 in
  if class =? DW_EH_PE_pcrel then
    if pc_rel_base state =? PL_VM_ADDRESS_INVALID
    then inl (PLCRASH_ENOTSUP, s)
    else inr (pc_rel_base state, location, s)
  else if class =? DW_EH_PE_absptr then
    inr (0x0, location, s)
  else if class =? DW_EH_PE_textrel then
    if text_base state =? PL_VM_ADDRESS_INVALID
    then inl (PLCRASH_ENOTSUP, s)
    else inr (text_base state, location, s)
  else if class =? DW_EH_PE_datarel then
    if data_base state =? PL_VM_ADDRESS_INVALID
    then inl (PLCRASH_ENOTSUP, s)
    else inr (data_base state, location, s)
  else if class =? DW_EH_PE_funcrel then
    if func_base state =? PL_VM_ADDRESS_INVALID
    then inl (PLCRASH_ENOTSUP, s)
    else inr (func_base state, location, s)
  else if class =? DW_EH_PE_aligned then
    if frame_section_vm_addr state =? PL_VM_ADDRESS_INVALID
    then inl (PLCRASH_ENOTSUP, s)
    else if frame_section_base state =? PL_VM_ADDRESS_INVALID
    then inl (PLCRASH_ENOTSUP, s)
    else
      let offset := pl_vm_address_t (location - frame_section_base state) in
      let vm_addr := pl_vm_address_t (frame_section_vm_addr state + offset) in
      let vm_aligned := gnueh_vm_aligned vm_addr (address_size state) in
      let location := pl_vm_address_t (location + pl_vm_address_t (vm_aligned - vm_addr)) in
      inr (0x0, location, set_size s (pl_vm_size_t (vm_aligned - vm_addr)))
  else inl (PLCRASH_ENOTSUP, s).

(** [*result = v + base; *size += n;] *)
Definition gnueh_ptr_store (s : store) (v base n : Z)
    (reads : list mobject_access) : store :=
  {| st_result := pl_vm_address_t (v + base);
     st_size := pl_vm_size_t (st_size s + n);
     st_reads := reads |}.

(** The second [switch], on [encoding & 0x0F]: the value read at [location]
    plus [base]. [indeterminate] is what an automatic variable without an
    initializer holds before it is written. *)
Definition gnueh_ptr_value (mobj : plcrash_async_mobject_t)
    (byteorder : plcrash_async_byteorder_t) (location encoding : Z)
    (state : plcrash_async_dwarf_gnueh_ptr_state_t)
    (base indeterminate : Z) (s : store)
  : step store :=
  let repr := Z.land encoding 0x0F in
  if repr =? DW_EH_PE_absptr then
    match pl_dwarf_read_umax64 mobj byteorder location 0 (address_size state)
            (st_reads s) with
    | (None, reads) => inl (PLCRASH_EINVAL, set_reads s reads)
    | (Some u64, reads) => inr (gnueh_ptr_store s u64 base (address_size state) reads)
    end
  else if repr =? DW_EH_PE_uleb128 then
    let '(err, leb) :=
      plcrash_async_dwarf_read_uleb128 mobj location
        {| st_result := indeterminate; st_size := pl_vm_address_t indeterminate;
           st_reads := st_reads s |} in
    let ulebv := st_result leb in
    let uleb_size := st_size leb in
    if ulebv >? PL_VM_ADDRESS_MAX
    then inl (PLCRASH_ENOTSUP, set_reads s (st_reads leb))
    else inr (gnueh_ptr_store s ulebv base uleb_size (st_reads leb))
  else if repr =? DW_EH_PE_udata2 then
    match plcrash_async_mobject_read_uint16 mobj byteorder location 0 (st_reads s) with
    | (PLCRASH_ESUCCESS, udata2, reads) => inr (gnueh_ptr_store s udata2 base 2 reads)
    | (err, _, reads) => inl (err, set_reads s reads)
    end
  else if repr =? DW_EH_PE_udata4 then
    match plcrash_async_mobject_read_uint32 mobj byteorder location 0 (st_reads s) with
    | (PLCRASH_ESUCCESS, udata4, reads) => inr (gnueh_ptr_store s udata4 base 4 reads)
    | (err, _, reads) => inl (err, set_reads s reads)
    end
  else if repr =? DW_EH_PE_udata8 then
    match plcrash_async_mobject_read_uint64 mobj byteorder location 0 (st_reads s) with
    | (PLCRASH_ESUCCESS, udata8, reads) => inr (gnueh_ptr_store s udata8 base 8 reads)
    | (err, _, reads) => inl (err, set_reads s reads)
    end
  else if repr =? DW_EH_PE_sleb128 then
    let '(err, leb) :=
      plcrash_async_dwarf_read_sleb128 mobj location
        {| st_result := indeterminate; st_size := pl_vm_size_t indeterminate;
           st_reads := st_reads s |} in
    let slebv := st_result leb in
    let sleb_size := st_size leb in
    if (slebv >? PL_VM_OFF_MAX) || (slebv <? PL_VM_OFF_MIN)
    then inl (PLCRASH_ENOTSUP, set_reads s (st_reads leb))
    else inr (gnueh_ptr_store s slebv base sleb_size (st_reads leb))
  else if repr =? DW_EH_PE_sdata2 then
    match plcrash_async_mobject_read_uint16 mobj byteorder location 0 (st_reads s) with
    | (PLCRASH_ESUCCESS, v, reads) => inr (gnueh_ptr_store s (int16_t v) base 2 reads)
    | (err, _, reads) => inl (err, set_reads s reads)
    end
  else if repr =? DW_EH_PE_sdata4 then
    match plcrash_async_mobject_read_uint32 mobj byteorder location 0 (st_reads s) with
    | (PLCRASH_ESUCCESS, v, reads) => inr (gnueh_ptr_store s (int32_t v) base 4 reads)
    | (err, _, reads) => inl (err, set_reads s reads)
    end
  else if repr =? DW_EH_PE_sdata8 then
    match plcrash_async_mobject_read_uint64 mobj byteorder location 0 (st_reads s) with
    | (PLCRASH_ESUCCESS, v, reads) => inr (gnueh_ptr_store s (int64_t v) base 8 reads)
    | (err, _, reads) => inl (err, set_reads s reads)
    end
  else inl (PLCRASH_ENOTSUP, s).

(** The function up to the test of [DW_EH_PE_indirect]: the early-out on
    [DW_EH_PE_omit], [*size = 0] and the two switches. *)
Definition gnueh_ptr_direct (mobj : plcrash_async_mobject_t)
    (byteorder : plcrash_async_byteorder_t) (location encoding : Z)
    (state : plcrash_async_dwarf_gnueh_ptr_state_t)
    (indeterminate : Z) (s : store)
  : step store :=
  if encoding =? DW_EH_PE_omit then inl (PLCRASH_ENOTFOUND, s)
  else
    match gnueh_ptr_base location encoding state (set_size s 0) with
    | inl ret => inl ret
    | inr (base, location, s) =>
        gnueh_ptr_value mobj byteorder location encoding state base indeterminate s
    end.

(** The depth of the calls still to come: one when the encoding asks for
    indirection, none otherwise. *)
Definition indirections (encoding : Z) : nat :=
  if Z.land encoding DW_EH_PE_indirect =? 0 then 0%nat else 1%nat.

(** [plcrash_async_dwarf_read_gnueh_ptr]. The call for the indirection writes
    to the caller's [result] cell and to a [size] cell of its own, the local
    [target_size]. *)
Equations plcrash_async_dwarf_read_gnueh_ptr (mobj : plcrash_async_mobject_t)
    (byteorder : plcrash_async_byteorder_t) (location encoding : Z)
    (state : plcrash_async_dwarf_gnueh_ptr_state_t)
    (indeterminate : Z) (s : store)
  : plcrash_error_t * store
  by wf (indirections encoding) lt :=
plcrash_async_dwarf_read_gnueh_ptr mobj byteorder location encoding state indeterminate s
  with gnueh_ptr_direct mobj byteorder location encoding state indeterminate s := {
  | inl ret => ret
  | inr s1 with Z.eq_dec (Z.land encoding DW_EH_PE_indirect) 0 := {
    | left _ => (PLCRASH_ESUCCESS, s1)
    | right _ =>
        let '(err, target) :=
          plcrash_async_dwarf_read_gnueh_ptr mobj byteorder (st_result s1)
            DW_EH_PE_absptr state indeterminate
            (set_size s1 (pl_vm_size_t indeterminate)) in
        (err, set_size target (st_size s1)) } }.
Next Obligation.
  unfold indirections.
  destruct (Z.eqb_spec (Z.land encoding DW_EH_PE_indirect) 0); [contradiction|].
  cbn. lia.
Qed.

(** ** Notions used to state the properties *)

(** The bytes [bs] are mapped, one after the other, from [location + offset]
    on. *)
Fixpoint stored_at (mobj : plcrash_async_mobject_t) (location offset : Z)
    (bs : list byte) : Prop :=
  match bs with
  | [] => True
  | b :: rest =>
      plcrash_async_mobject_remap_address mobj location offset 1 = Some [b]
      /\ stored_at mobj location (offset + 1) rest
  end.

(** The continuation bit of a LEB128 byte. *)
Definition continues (b : byte) : bool :=
  negb (Z.land (byte_value b) 0x80 =? 0).

(** The sign bit of the 7-bit group of a LEB128 byte. *)
Definition sign_bit (b : byte) : bool :=
  negb (Z.land (byte_value b) 0x40 =? 0).

(** The mapped range ends after the bytes [bs] that lie at [location], and
    none of them has the continuation bit clear. *)
Definition ends_unterminated (mobj : plcrash_async_mobject_t) (location : Z)
    (bs : list byte) : Prop :=
  stored_at mobj location 0 bs
  /\ forallb continues bs = true
  /\ plcrash_async_mobject_remap_address mobj location (Z.of_nat (length bs)) 1 = None.

(** The accumulator after the groups of [bs] went into it, the first of them
    at [shift]. *)
Fixpoint leb128_accumulate (as_result : Z -> Z) (shift result : Z)
    (bs : list byte) : Z :=
  match bs with
  | [] => result
  | b :: rest =>
      leb128_accumulate as_result (shift + 7)
        (leb128_or as_result result (byte_value b) shift) rest
  end.

(** The trace after [n] single bytes were requested, from [offset] on. *)
Fixpoint leb128_requests (location offset : Z) (n : nat)
    (reads : list mobject_access) : list mobject_access :=
  match n with
  | O => reads
  | S k => leb128_requests location (offset + 1) k (requested reads location offset 1)
  end.

(** Rounding [addr] up to the next multiple of [n], a power of two: the
    conventional mask is the complement of [n - 1]. *)
Definition align_up (addr n : Z) : Z := Z.land (addr + (n - 1)) (Z.lnot (n - 1)).

(** The number that the 7-bit groups of the byte values [vs] spell, the
    first group being the lowest. *)
Fixpoint leb128_groups (vs : list Z) : Z :=
  match vs with
  | [] => 0
  | v :: rest => Z.land v 0x7f + 128 * leb128_groups rest
  end.

(** The bytes [bs] are one LEB128 value: the last byte, and no other, has
    the continuation bit clear. *)
Fixpoint leb128_encoded (bs : list byte) : bool :=
  match bs with
  | [] => false
  | b :: rest =>
      match rest with
      | [] => negb (continues b)
      | _ :: _ => continues b && leb128_encoded rest
      end
  end.

(** The ULEB128 encoding of [v] as byte values, of [n] bytes at most: the
    low 7 bits with the continuation bit as long as more than 7 bits are
    left. *)
Fixpoint uleb128_encode (n : nat) (v : Z) : list Z :=
  match n with
  | O => []
  | S k =>
      if v <? 128 then [v]
      else (v mod 128 + 128) :: uleb128_encode k (v / 128)
  end.

(** The SLEB128 encoding of [v] as byte values, of [n] bytes at most: the
    low 7 bits with the continuation bit until what is left is the sign
    alone and agrees with bit 6 of the group. *)
Fixpoint sleb128_encode (n : nat) (v : Z) : list Z :=
  match n with
  | O => []
  | S k =>
      let group := v mod 128 in
      let rest := v / 128 in
      if ((rest =? 0) && (group <? 64)) || ((rest =? -1) && (64 <=? group))
      then [group]
      else (group + 128) :: sleb128_encode k rest
  end.

(** The base address of the five classes that read at [location] itself,
    [absptr], [pcrel], [textrel], [datarel] and [funcrel], when the state
    has it: what the first switch selects for them. There is none for
    [DW_EH_PE_aligned], which moves the location and counts the bytes
    skipped in [size], and none for a class without a case. *)
Definition class_base (encoding : Z) (state : plcrash_async_dwarf_gnueh_ptr_state_t)
  : option Z :=
  let available (base : Z) :=
    if base =? PL_VM_ADDRESS_INVALID then None else Some base in
  let class := Z.land encoding 0x70 in
  if class =? DW_EH_PE_absptr then Some 0
  else if class =? DW_EH_PE_pcrel then available (pc_rel_base state)
  else if class =? DW_EH_PE_textrel then available (text_base state)
  else if class =? DW_EH_PE_datarel then available (data_base state)
  else if class =? DW_EH_PE_funcrel then available (func_base state)
  else None.

(** The location that the second switch reads from: [location] itself, and
    for [DW_EH_PE_aligned] the location moved by [vm_aligned - vm_addr]. *)
Definition value_location (location encoding : Z)
    (state : plcrash_async_dwarf_gnueh_ptr_state_t) : Z :=
  if Z.land encoding 0x70 =? DW_EH_PE_aligned then
    let offset := pl_vm_address_t (location - frame_section_base state) in
    let vm_addr := pl_vm_address_t (frame_section_vm_addr state + offset) in
    let vm_aligned := gnueh_vm_aligned vm_addr (address_size state) in
    pl_vm_address_t (location + pl_vm_address_t (vm_aligned - vm_addr))
  else location.

(** The number of bytes of the representations of fixed width. *)
Definition fixed_width (encoding : Z) (state : plcrash_async_dwarf_gnueh_ptr_state_t)
  : option Z :=
  let repr := Z.land encoding 0x0F in
  if repr =? DW_EH_PE_absptr then Some (address_size state)
  else if (repr =? DW_EH_PE_udata2) || (repr =? DW_EH_PE_sdata2) then Some 2
  else if (repr =? DW_EH_PE_udata4) || (repr =? DW_EH_PE_sdata4) then Some 4
  else if (repr =? DW_EH_PE_udata8) || (repr =? DW_EH_PE_sdata8) then Some 8
  else None.

(** The number of bytes of the data representations, [udata2/4/8] and
    [sdata2/4/8]. *)
Definition data_width (encoding : Z) : option Z :=
  let repr := Z.land encoding 0x0F in
  if (repr =? DW_EH_PE_udata2) || (repr =? DW_EH_PE_sdata2) then Some 2
  else if (repr =? DW_EH_PE_udata4) || (repr =? DW_EH_PE_sdata4) then Some 4
  else if (repr =? DW_EH_PE_udata8) || (repr =? DW_EH_PE_sdata8) then Some 8
  else None.

(** The swap function of the byte-order table for a datum of [w] bytes. *)
Definition swap_of (byteorder : plcrash_async_byteorder_t) (w : Z) : Z -> Z :=
  if w =? 2 then swap16 byteorder
  else if w =? 4 then swap32 byteorder
  else swap64 byteorder.

(** The representations that the second switch has a case for. *)
Definition known_representation (repr : Z) : bool :=
  (repr =? DW_EH_PE_absptr) || (repr =? DW_EH_PE_uleb128)
  || (repr =? DW_EH_PE_udata2) || (repr =? DW_EH_PE_udata4)
  || (repr =? DW_EH_PE_udata8) || (repr =? DW_EH_PE_sleb128)
  || (repr =? DW_EH_PE_sdata2) || (repr =? DW_EH_PE_sdata4)
  || (repr =? DW_EH_PE_sdata8).

(** ** Inputs of the examples *)

(** A byte order that leaves the host order as it is. *)
Definition byteorder_host : plcrash_async_byteorder_t :=
  {| swap16 := fun x => x; swap32 := fun x => x; swap64 := fun x => x |}.

(** The memory object that maps [bs] at the address [0x1000]. *)
Definition mobject_of (bs : list byte) : plcrash_async_mobject_t :=
  {| mobj_task_address := 0x1000; mobj_data := bs |}.

(** A store whose cells hold recognisable values and whose trace is empty. *)
Definition store_init : store :=
  {| st_result := 0xAAAA; st_size := 0xBBBB; st_reads := [] |}.

(** Ten bytes that all have the continuation bit set. *)
Definition ten_continued : list byte :=
  [x80; x80; x80; x80; x80; x80; x80; x80; x80; x80].

(** Two words of four bytes each, or one pointer of eight. *)
Definition two_words : list byte :=
  [x11; x22; x33; x44; x55; x66; x77; x88].

(** A pointer to the address [0x1008], and the word stored there. *)
Definition pointer_and_target : list byte :=
  [x08; x10; x00; x00; x00; x00; x00; x00;
   x09; x0a; x0b; x0c; x00; x00; x00; x00].

(** A state with no base address but those of the frame section. *)
Definition state_of (address_size : Z) (invalid : Z)
  : plcrash_async_dwarf_gnueh_ptr_state_t :=
  plcrash_async_dwarf_gnueh_ptr_state_init address_size 0x1000 0x1000
    invalid invalid invalid invalid.

(** A state whose only base address, beside those of the frame section, is
    the one for [DW_EH_PE_pcrel]. *)
Definition state_with_pc (address_size pc_rel_base invalid : Z)
  : plcrash_async_dwarf_gnueh_ptr_state_t :=
  plcrash_async_dwarf_gnueh_ptr_state_init address_size 0x1000 0x1000
    pc_rel_base invalid invalid invalid.

(** ** The supported widths *)

Hypothesis vm_bits_supported : vm_bits = 32 \/ vm_bits = 64.

Lemma pl_vm_off_t_small (x : Z) : 0 <= x < 2 ^ 31 -> pl_vm_off_t x = x.
Proof.
  intros Hx. unfold pl_vm_off_t, sint.
  destruct vm_bits_supported as [-> | ->].
  - change (2 ^ (32 - 1)) with (2 ^ 31). change (2 ^ 32) with (2 * 2 ^ 31).
    rewrite Z.mod_small; lia.
  - change (2 ^ (64 - 1)) with (2 ^ 63). change (2 ^ 64) with (2 * 2 ^ 63).
    assert (2 ^ 31 < 2 ^ 63) by (apply Z.pow_lt_mono_r; lia).
    rewrite Z.mod_small; lia.
Qed.

Lemma pl_vm_size_t_small (x : Z) : 0 <= x < 2 ^ 32 -> pl_vm_size_t x = x.
Proof.
  intros Hx. unfold pl_vm_size_t, uint.
  destruct vm_bits_supported as [-> | ->].
  - apply Z.mod_small; lia.
  - assert (2 ^ 32 < 2 ^ 64) by (apply Z.pow_lt_mono_r; lia).
    apply Z.mod_small; lia.
Qed.

Lemma unsigned_int_small (x : Z) : 0 <= x < 2 ^ 32 -> unsigned_int x = x.
Proof. intros Hx. apply Z.mod_small. exact Hx. Qed.

(** ** The loop of the LEB128 decoders *)

Lemma leb128_loop_step as_result mobj location shift offset result reads :
  leb128_loop as_result mobj location shift offset result reads =
  match plcrash_async_mobject_remap_address mobj location offset 1 with
  | None =>
      (leb128_leave None,
       {| leb_shift := shift; leb_offset := offset; leb_result := result;
          leb_reads := requested reads location offset 1 |})
  | Some p =>
      if Z.land (load_uint8 p) 0x80 =? 0 then
        (leb128_leave (Some p),
         {| leb_shift := unsigned_int (shift + 7);
            leb_offset := pl_vm_off_t (offset + 1);
            leb_result := leb128_or as_result result (load_uint8 p) shift;
            leb_reads := requested reads location offset 1 |})
      else if unsigned_int (shift + 7) <? 64 then
        leb128_loop as_result mobj location
          (unsigned_int (shift + 7))
          (pl_vm_off_t (offset + 1))
          (leb128_or as_result result (load_uint8 p) shift)
          (requested reads location offset 1)
      else
        (leb128_return PLCRASH_ENOTSUP,
         {| leb_shift := unsigned_int (shift + 7);
            leb_offset := pl_vm_off_t (offset + 1);
            leb_result := leb128_or as_result result (load_uint8 p) shift;
            leb_reads := requested reads location offset 1 |})
  end.
Proof.
  rewrite leb128_loop_equation_1.
  destruct (plcrash_async_mobject_remap_address mobj location offset 1) as [p|];
    cbn; [|reflexivity].
  destruct (Z.eq_dec (Z.land (load_uint8 p) 128) 0) as [e|n]; cbn.
  - rewrite e. reflexivity.
  - destruct (Z.eqb_spec (Z.land (load_uint8 p) 128) 0); [contradiction|].
    destruct (Z_lt_ge_dec (unsigned_int (shift + 7)) 64) as [l|g]; cbn.
    + destruct (Z.ltb_spec (unsigned_int (shift + 7)) 64); [reflexivity|lia].
    + destruct (Z.ltb_spec (unsigned_int (shift + 7)) 64); [lia|reflexivity].
Qed.

Lemma read_gnueh_ptr_step mobj byteorder location encoding state indeterminate s :
  plcrash_async_dwarf_read_gnueh_ptr mobj byteorder location encoding state indeterminate s =
  match gnueh_ptr_direct mobj byteorder location encoding state indeterminate s with
  | inl ret => ret
  | inr s1 =>
      if Z.land encoding DW_EH_PE_indirect =? 0 then (PLCRASH_ESUCCESS, s1)
      else
        let '(err, target) :=
          plcrash_async_dwarf_read_gnueh_ptr mobj byteorder (st_result s1)
            DW_EH_PE_absptr state indeterminate
            (set_size s1 (pl_vm_size_t indeterminate)) in
        (err, set_size target (st_size s1))
  end.
Proof.
  rewrite plcrash_async_dwarf_read_gnueh_ptr_equation_1.
  destruct (gnueh_ptr_direct mobj byteorder location encoding state indeterminate s)
    as [ret|s1]; cbn; [reflexivity|].
  destruct (Z.eq_dec (Z.land encoding DW_EH_PE_indirect) 0) as [e|n]; cbn.
  - rewrite e. reflexivity.
  - destruct (Z.eqb_spec (Z.land encoding DW_EH_PE_indirect) 0); [contradiction|].
    reflexivity.
Qed.


Lemma stored_at_app mobj location offset pre post :
  stored_at mobj location offset (pre ++ post) <->
  stored_at mobj location offset pre
  /\ stored_at mobj location (offset + Z.of_nat (length pre)) post.
Proof.
  revert offset. induction pre as [|b pre IH]; intros offset; cbn [stored_at app length].
  - rewrite Z.add_0_r. tauto.
  - rewrite IH. rewrite Nat2Z.inj_succ.
    replace (offset + 1 + Z.of_nat (length pre))
      with (offset + Z.succ (Z.of_nat (length pre))) by lia.
    tauto.
Qed.

Lemma leb128_requests_app location offset n k reads :
  leb128_requests location offset (n + k) reads =
  leb128_requests location (offset + Z.of_nat n) k
    (leb128_requests location offset n reads).
Proof.
  revert offset reads. induction n as [|n IH]; intros offset reads.
  - cbn. rewrite Z.add_0_r. reflexivity.
  - cbn [Nat.add leb128_requests]. rewrite IH. rewrite Nat2Z.inj_succ.
    f_equal. lia.
Qed.

Lemma leb128_requests_length location offset n reads :
  length (leb128_requests location offset n reads) = (length reads + n)%nat.
Proof.
  revert offset reads. induction n as [|n IH]; intros offset reads; cbn.
  - lia.
  - rewrite IH. unfold requested. rewrite length_app. cbn. lia.
Qed.

Lemma leb128_accumulate_app as_result shift result pre post :
  leb128_accumulate as_result shift result (pre ++ post) =
  leb128_accumulate as_result (shift + 7 * Z.of_nat (length pre))
    (leb128_accumulate as_result shift result pre) post.
Proof.
  revert shift result. induction pre as [|b pre IH]; intros shift result.
  - cbn. rewrite Z.add_0_r. reflexivity.
  - cbn [app leb128_accumulate length]. rewrite IH. rewrite Nat2Z.inj_succ.
    f_equal. lia.
Qed.

(** The loop walks over bytes that have the continuation bit set, as long
    as the shift stays below 64. *)
Lemma leb128_loop_continues as_result mobj location pre :
  forall shift offset result reads,
    0 <= shift -> shift + 7 * Z.of_nat (length pre) <= 63 ->
    0 <= offset -> offset + Z.of_nat (length pre) < 2 ^ 31 ->
    stored_at mobj location offset pre ->
    forallb continues pre = true ->
    leb128_loop as_result mobj location shift offset result reads =
    leb128_loop as_result mobj location
      (shift + 7 * Z.of_nat (length pre))
      (offset + Z.of_nat (length pre))
      (leb128_accumulate as_result shift result pre)
      (leb128_requests location offset (length pre) reads).
Proof.
  induction pre as [|b pre IH]; intros shift offset result reads Hs Hs' Ho Ho' Hst Hc.
  - cbn. rewrite !Z.add_0_r. reflexivity.
  - cbn [length] in *. rewrite Nat2Z.inj_succ in *.
    cbn [stored_at] in Hst. destruct Hst as [Hb Hst].
    cbn [forallb] in Hc. apply andb_true_iff in Hc. destruct Hc as [Hcb Hc].
    rewrite leb128_loop_step, Hb. cbn [load_uint8].
    unfold continues in Hcb. apply negb_true_iff in Hcb. rewrite Hcb.
    rewrite unsigned_int_small by lia.
    destruct (Z.ltb_spec (shift + 7) 64); [|lia].
    rewrite pl_vm_off_t_small by lia.
    rewrite IH by (try assumption; lia).
    cbn [leb128_accumulate leb128_requests].
    f_equal; lia.
Qed.

(** A byte without the continuation bit ends the loop by [break]. *)
Lemma leb128_loop_terminator as_result mobj location shift offset result reads last :
  0 <= shift <= 63 -> 0 <= offset < 2 ^ 31 - 1 ->
  plcrash_async_mobject_remap_address mobj location offset 1 = Some [last] ->
  continues last = false ->
  leb128_loop as_result mobj location shift offset result reads =
  (leb128_leave (Some [last]),
   {| leb_shift := shift + 7; leb_offset := offset + 1;
      leb_result := leb128_or as_result result (byte_value last) shift;
      leb_reads := requested reads location offset 1 |}).
Proof.
  intros Hs Ho Hb Hc.
  rewrite leb128_loop_step, Hb. cbn [load_uint8].
  unfold continues in Hc. apply negb_false_iff in Hc. rewrite Hc.
  rewrite unsigned_int_small by lia. rewrite pl_vm_off_t_small by lia.
  reflexivity.
Qed.

(** A byte that cannot be fetched ends the loop with [p] NULL. *)
Lemma leb128_loop_unmapped as_result mobj location shift offset result reads :
  plcrash_async_mobject_remap_address mobj location offset 1 = None ->
  leb128_loop as_result mobj location shift offset result reads =
  (leb128_leave None,
   {| leb_shift := shift; leb_offset := offset; leb_result := result;
      leb_reads := requested reads location offset 1 |}).
Proof.
  intros Hb. rewrite leb128_loop_step, Hb. reflexivity.
Qed.

(** A byte with the continuation bit set that takes the shift to 64 or more
    makes the loop return. *)
Lemma leb128_loop_oversized as_result mobj location shift offset result reads b :
  57 <= shift <= 63 -> 0 <= offset < 2 ^ 31 - 1 ->
  plcrash_async_mobject_remap_address mobj location offset 1 = Some [b] ->
  continues b = true ->
  leb128_loop as_result mobj location shift offset result reads =
  (leb128_return PLCRASH_ENOTSUP,
   {| leb_shift := shift + 7; leb_offset := offset + 1;
      leb_result := leb128_or as_result result (byte_value b) shift;
      leb_reads := requested reads location offset 1 |}).
Proof.
  intros Hs Ho Hb Hc.
  rewrite leb128_loop_step, Hb. cbn [load_uint8].
  unfold continues in Hc. apply negb_true_iff in Hc. rewrite Hc.
  rewrite unsigned_int_small by lia. rewrite pl_vm_off_t_small by lia.
  destruct (Z.ltb_spec (shift + 7) 64); [lia|reflexivity].
Qed.

(** The loop requests at most one byte for every 7 bits of shift left below
    70. *)
Lemma leb128_loop_requests_bound as_result mobj location (n : nat) :
  forall shift offset result reads,
    0 <= shift <= 63 -> 63 - shift < 7 * Z.of_nat n ->
    (length (leb_reads (snd (leb128_loop as_result mobj location shift offset result reads)))
     <= length reads + n)%nat.
Proof.
  induction n as [|n IH]; intros shift offset result reads Hs Hn; [lia|].
  rewrite leb128_loop_step.
  assert (Hone : (length (requested reads location offset 1) = length reads + 1)%nat).
  { unfold requested. rewrite length_app. reflexivity. }
  destruct (plcrash_async_mobject_remap_address mobj location offset 1) as [p|];
    [|cbn [snd leb_reads]; lia].
  destruct (Z.land (load_uint8 p) 128 =? 0); [cbn [snd leb_reads]; lia|].
  rewrite unsigned_int_small by lia.
  destruct (Z.ltb_spec (shift + 7) 64); [|cbn [snd leb_reads]; lia].
  etransitivity; [apply IH; lia|]. lia.
Qed.

(** ** The LEB128 decoders on an encoded value *)

Lemma leb128_loop_decodes as_result mobj location reads pre last :
  (length pre <= 9)%nat ->
  stored_at mobj location 0 (pre ++ [last]) ->
  forallb continues pre = true ->
  continues last = false ->
  leb128_loop as_result mobj location 0 0 0 reads =
  (leb128_leave (Some [last]),
   {| leb_shift := 7 * (Z.of_nat (length pre) + 1);
      leb_offset := Z.of_nat (length pre) + 1;
      leb_result := leb128_accumulate as_result 0 0 (pre ++ [last]);
      leb_reads := leb128_requests location 0 (S (length pre)) reads |}).
Proof.
  intros Hlen Hst Hc Hlast.
  apply stored_at_app in Hst. destruct Hst as [Hpre Hl].
  cbn [stored_at] in Hl. destruct Hl as [Hl _].
  rewrite (leb128_loop_continues as_result mobj location pre) by (try assumption; lia).
  rewrite (leb128_loop_terminator _ _ _ _ _ _ _ last) by (try assumption; lia).
  rewrite leb128_accumulate_app. cbn [leb128_accumulate].
  replace (S (length pre)) with (length pre + 1)%nat by lia.
  rewrite leb128_requests_app. cbn [leb128_requests].
  f_equal. f_equal; lia.
Qed.

Lemma uleb128_decodes mobj location s pre last :
  (length pre <= 9)%nat ->
  stored_at mobj location 0 (pre ++ [last]) ->
  forallb continues pre = true ->
  continues last = false ->
  plcrash_async_dwarf_read_uleb128 mobj location s =
  (PLCRASH_ESUCCESS,
   {| st_result := leb128_accumulate uint64_t 0 0 (pre ++ [last]);
      st_size := Z.of_nat (length pre) + 1;
      st_reads := leb128_requests location 0 (S (length pre)) (st_reads s) |}).
Proof.
  intros Hlen Hst Hc Hlast. unfold plcrash_async_dwarf_read_uleb128.
  rewrite (leb128_loop_decodes uint64_t mobj location (st_reads s) pre last)
    by assumption.
  cbn [leb_result leb_offset leb_reads].
  rewrite pl_vm_size_t_small by lia. reflexivity.
Qed.

Lemma uint64_opp_uint64 (x : Z) : uint64_t (- uint64_t x) = uint64_t (- x).
Proof.
  unfold uint64_t, uint.
  change (- (x mod 2 ^ 64)) with (0 - x mod 2 ^ 64).
  rewrite Zminus_mod_idemp_r. reflexivity.
Qed.

Lemma sleb128_decodes mobj location s pre last :
  (length pre <= 9)%nat ->
  stored_at mobj location 0 (pre ++ [last]) ->
  forallb continues pre = true ->
  continues last = false ->
  plcrash_async_dwarf_read_sleb128 mobj location s =
  (PLCRASH_ESUCCESS,
   {| st_result :=
        let shift := 7 * (Z.of_nat (length pre) + 1) in
        let result := leb128_accumulate int64_t 0 0 (pre ++ [last]) in
        if (shift <? 64) && sign_bit last
        then int64_t (Z.lor (uint64_t result) (uint64_t (- 2 ^ shift)))
        else result;
      st_size := Z.of_nat (length pre) + 1;
      st_reads := leb128_requests location 0 (S (length pre)) (st_reads s) |}).
Proof.
  intros Hlen Hst Hc Hlast. unfold plcrash_async_dwarf_read_sleb128.
  rewrite (leb128_loop_decodes int64_t mobj location (st_reads s) pre last)
    by assumption.
  cbn [leb_result leb_offset leb_reads leb_shift load_uint8].
  rewrite pl_vm_size_t_small by lia.
  cbv zeta. unfold sign_bit.
  rewrite uint64_opp_uint64, Z.shiftl_1_l. reflexivity.
Qed.

Lemma uint64_int64 (x : Z) : uint64_t (int64_t x) = uint64_t x.
Proof.
  unfold uint64_t, int64_t, uint, sint.
  change (2 ^ (64 - 1)) with (2 ^ 63).
  rewrite Zminus_mod_idemp_l.
  replace (x + 2 ^ 63 - 2 ^ 63) with x by lia. reflexivity.
Qed.

Lemma uint64_uint64 (x : Z) : uint64_t (uint64_t x) = uint64_t x.
Proof. unfold uint64_t, uint. apply Z.mod_mod. lia. Qed.

Lemma uint64_lor (a b : Z) :
  uint64_t (Z.lor (uint64_t a) (uint64_t b)) = Z.lor (uint64_t a) (uint64_t b).
Proof.
  unfold uint64_t, uint.
  rewrite <- !Z.land_ones by lia.
  rewrite Z.land_lor_distr_l.
  rewrite <- !Z.land_assoc, Z.land_diag. reflexivity.
Qed.

(** The signed decoder gathers the same bits as the unsigned one. *)
Lemma leb128_accumulate_signed bs :
  forall shift result,
    uint64_t (leb128_accumulate int64_t shift result bs) =
    leb128_accumulate uint64_t shift (uint64_t result) bs.
Proof.
  induction bs as [|b bs IH]; intros shift result; cbn [leb128_accumulate].
  - reflexivity.
  - rewrite IH. unfold leb128_or.
    rewrite uint64_int64, uint64_uint64, uint64_lor. reflexivity.
Qed.

Lemma leb128_loop_unterminated as_result mobj location reads bs :
  ends_unterminated mobj location bs ->
  (length bs < 10)%nat ->
  leb128_loop as_result mobj location 0 0 0 reads =
  (leb128_leave None,
   {| leb_shift := 7 * Z.of_nat (length bs);
      leb_offset := Z.of_nat (length bs);
      leb_result := leb128_accumulate as_result 0 0 bs;
      leb_reads := leb128_requests location 0 (S (length bs)) reads |}).
Proof.
  intros (Hst & Hc & Hend) Hlen.
  rewrite (leb128_loop_continues as_result mobj location bs) by (try assumption; lia).
  rewrite leb128_loop_unmapped by (rewrite Z.add_0_l; exact Hend).
  replace (S (length bs)) with (length bs + 1)%nat by lia.
  rewrite leb128_requests_app. cbn [leb128_requests].
  f_equal; try (f_equal; lia).
Qed.

Lemma leb128_loop_ten_continued as_result mobj location reads bs :
  length bs = 10%nat ->
  stored_at mobj location 0 bs ->
  forallb continues bs = true ->
  leb128_loop as_result mobj location 0 0 0 reads =
  (leb128_return PLCRASH_ENOTSUP,
   {| leb_shift := 70; leb_offset := 10;
      leb_result := leb128_accumulate as_result 0 0 bs;
      leb_reads := leb128_requests location 0 10 reads |}).
Proof.
  intros Hlen Hst Hc.
  do 10 (destruct bs as [|? bs]; [discriminate Hlen|]).
  destruct bs; [|discriminate Hlen].
  match goal with
  | |- context [leb128_accumulate _ _ _ [?b0; ?b1; ?b2; ?b3; ?b4; ?b5; ?b6; ?b7; ?b8; ?b9]] =>
      change [b0; b1; b2; b3; b4; b5; b6; b7; b8; b9]
        with ([b0; b1; b2; b3; b4; b5; b6; b7; b8] ++ [b9]) in *;
      set (pre := [b0; b1; b2; b3; b4; b5; b6; b7; b8]) in *;
      assert (Hpre : length pre = 9%nat) by reflexivity;
      clearbody pre
  end.
  apply stored_at_app in Hst. destruct Hst as [Hst Hl].
  cbn [stored_at] in Hl. destruct Hl as [Hl _].
  rewrite forallb_app in Hc. apply andb_true_iff in Hc. destruct Hc as [Hc Hb].
  cbn [forallb] in Hb. rewrite andb_true_r in Hb.
  rewrite Hpre in Hl.
  rewrite (leb128_loop_continues as_result mobj location pre)
    by (try assumption; rewrite ?Hpre; lia).
  rewrite Hpre.
  rewrite (leb128_loop_oversized as_result mobj location _ _ _ _ b8)
    by (try assumption; lia).
  rewrite leb128_accumulate_app. cbn [leb128_accumulate]. rewrite Hpre.
  reflexivity.
Qed.

(** ** Properties of the LEB128 decoders *)

(** C5. When ten bytes with the continuation bit set lie at [location]
    (whatever follows them), the ULEB128 decoder fails with
    [PLCRASH_ENOTSUP] and hands out no value and no size; and on every
    input the decoder requests at most ten bytes. *)
Theorem C5_uleb128_oversized_is_unsupported mobj location s :
  (forall bs,
      length bs = 10%nat ->
      stored_at mobj location 0 bs ->
      forallb continues bs = true ->
      fst (plcrash_async_dwarf_read_uleb128 mobj location s) = PLCRASH_ENOTSUP
      /\ st_size (snd (plcrash_async_dwarf_read_uleb128 mobj location s)) = st_size s
      /\ st_reads (snd (plcrash_async_dwarf_read_uleb128 mobj location s))
         = leb128_requests location 0 10 (st_reads s))
  /\ (length (st_reads (snd (plcrash_async_dwarf_read_uleb128 mobj location s)))
      <= length (st_reads s) + 10)%nat.
Proof.
  split.
  - intros bs Hlen Hst Hc. unfold plcrash_async_dwarf_read_uleb128.
    rewrite (leb128_loop_ten_continued uint64_t mobj location (st_reads s) bs)
      by assumption.
    cbn. auto.
  - unfold plcrash_async_dwarf_read_uleb128.
    pose proof (leb128_loop_requests_bound uint64_t mobj location 10 0 0 0 (st_reads s)
                  ltac:(lia) ltac:(lia)) as Hb.
    destruct (leb128_loop uint64_t mobj location 0 0 0 (st_reads s)) as [[err|[p|]] v];
      cbn in *; exact Hb.
Qed.

(** C6, as amended. When the mapped range ends before a byte with the
    continuation bit clear is reached, and fewer than ten bytes after
    [location], both LEB128 decoders fail with [PLCRASH_EINVAL]. *)
Theorem C6_leb128_unterminated_is_invalid mobj location s bs :
  ends_unterminated mobj location bs ->
  (length bs < 10)%nat ->
  fst (plcrash_async_dwarf_read_uleb128 mobj location s) = PLCRASH_EINVAL
  /\ fst (plcrash_async_dwarf_read_sleb128 mobj location s) = PLCRASH_EINVAL.
Proof.
  intros Hend Hlen.
  unfold plcrash_async_dwarf_read_uleb128, plcrash_async_dwarf_read_sleb128.
  rewrite !(leb128_loop_unterminated _ mobj location (st_reads s) bs) by assumption.
  split; reflexivity.
Qed.

(** C10. A failing call of either LEB128 decoder leaves the cell of [size]
    as it was, since [size] is assigned on the path of success only, while
    the cell of [result] can hold what was gathered before the failure: with
    the single byte [0xE5] mapped and nothing after it, the call fails with
    [PLCRASH_EINVAL] and [result] holds [0x65]. *)
Theorem C10_leb128_failure_leaves_size mobj location s :
  (fst (plcrash_async_dwarf_read_uleb128 mobj location s) <> PLCRASH_ESUCCESS ->
   st_size (snd (plcrash_async_dwarf_read_uleb128 mobj location s)) = st_size s)
  /\ (fst (plcrash_async_dwarf_read_sleb128 mobj location s) <> PLCRASH_ESUCCESS ->
      st_size (snd (plcrash_async_dwarf_read_sleb128 mobj location s)) = st_size s)
  /\ (ends_unterminated mobj location [xe5] ->
      plcrash_async_dwarf_read_uleb128 mobj location s =
      (PLCRASH_EINVAL,
       {| st_result := 0x65; st_size := st_size s;
          st_reads := leb128_requests location 0 2 (st_reads s) |})
      /\ plcrash_async_dwarf_read_sleb128 mobj location s =
         (PLCRASH_EINVAL,
          {| st_result := 0x65; st_size := st_size s;
             st_reads := leb128_requests location 0 2 (st_reads s) |})).
Proof.
  split; [|split].
  - unfold plcrash_async_dwarf_read_uleb128.
    destruct (leb128_loop uint64_t mobj location 0 0 0 (st_reads s)) as [[err|[p|]] v];
      cbn; intros H; [reflexivity|contradiction|reflexivity].
  - unfold plcrash_async_dwarf_read_sleb128.
    destruct (leb128_loop int64_t mobj location 0 0 0 (st_reads s)) as [[err|[p|]] v];
      cbn; intros H; [reflexivity|contradiction|reflexivity].
  - intros Hend.
    unfold plcrash_async_dwarf_read_uleb128, plcrash_async_dwarf_read_sleb128.
    rewrite !(leb128_loop_unterminated _ mobj location (st_reads s) [xe5])
      by (try assumption; cbn; lia).
    split; reflexivity.
Qed.

(** ** The encoded-pointer decoder, step by step *)

(** Without the indirect flag the decoder ends after the two switches. *)
Lemma read_gnueh_ptr_plain mobj byteorder location encoding state indeterminate s :
  Z.land encoding DW_EH_PE_indirect = 0 ->
  plcrash_async_dwarf_read_gnueh_ptr mobj byteorder location encoding state indeterminate s =
  match gnueh_ptr_direct mobj byteorder location encoding state indeterminate s with
  | inl ret => ret
  | inr s1 => (PLCRASH_ESUCCESS, s1)
  end.
Proof.
  intros Hplain. rewrite read_gnueh_ptr_step, Hplain. reflexivity.
Qed.

Lemma pl_dwarf_read_umax64_reads mobj byteorder base_addr offset data_size reads :
  snd (pl_dwarf_read_umax64 mobj byteorder base_addr offset data_size reads)
  = requested reads base_addr offset data_size.
Proof.
  unfold pl_dwarf_read_umax64.
  destruct (plcrash_async_mobject_remap_address mobj base_addr offset data_size);
    reflexivity.
Qed.

Lemma pl_dwarf_read_umax64_value mobj byteorder base_addr offset data_size reads reads' :
  fst (pl_dwarf_read_umax64 mobj byteorder base_addr offset data_size reads)
  = fst (pl_dwarf_read_umax64 mobj byteorder base_addr offset data_size reads').
Proof.
  unfold pl_dwarf_read_umax64.
  destruct (plcrash_async_mobject_remap_address mobj base_addr offset data_size);
    reflexivity.
Qed.

(** A plain [DW_EH_PE_absptr] is one fixed-width read of [address_size]
    bytes at [location], with base 0 and a size that starts from 0. *)
Lemma read_gnueh_ptr_absptr mobj byteorder location state indeterminate s :
  plcrash_async_dwarf_read_gnueh_ptr mobj byteorder location DW_EH_PE_absptr
    state indeterminate s =
  match pl_dwarf_read_umax64 mobj byteorder location 0 (address_size state)
          (st_reads s) with
  | (None, reads) =>
      (PLCRASH_EINVAL,
       {| st_result := st_result s; st_size := 0; st_reads := reads |})
  | (Some u64, reads) =>
      (PLCRASH_ESUCCESS,
       {| st_result := pl_vm_address_t (u64 + 0);
          st_size := pl_vm_size_t (0 + address_size state);
          st_reads := reads |})
  end.
Proof.
  rewrite read_gnueh_ptr_plain by reflexivity.
  unfold gnueh_ptr_direct. cbn [Z.eqb DW_EH_PE_absptr DW_EH_PE_omit].
  unfold gnueh_ptr_base, gnueh_ptr_value. cbn -[pl_dwarf_read_umax64 Z.add].
  destruct (pl_dwarf_read_umax64 mobj byteorder location 0 (address_size state)
              (st_reads s)) as [[u64|] reads]; reflexivity.
Qed.

(** The fixed-width reads of the memory object fail with [PLCRASH_EINVAL]
    only. *)
Lemma plcrash_async_mobject_read_uint_code width swap mobj base_addr offset reads :
  fst (fst (plcrash_async_mobject_read_uint width swap mobj base_addr offset reads))
  = PLCRASH_ESUCCESS
  \/ fst (fst (plcrash_async_mobject_read_uint width swap mobj base_addr offset reads))
     = PLCRASH_EINVAL.
Proof.
  unfold plcrash_async_mobject_read_uint.
  destruct (plcrash_async_mobject_remap_address mobj base_addr offset width); cbn; auto.
Qed.

Ltac case_if :=
  match goal with
  | |- context [if ?c then _ else _] => destruct c eqn:?
  end.

Ltac case_read_uint :=
  match goal with
  | |- context [plcrash_async_mobject_read_uint ?w ?f ?m ?a ?o ?r] =>
      let H := fresh "Hcode" in
      pose proof (plcrash_async_mobject_read_uint_code w f m a o r) as H;
      destruct (plcrash_async_mobject_read_uint w f m a o r) as [[[] ?] ?];
      cbn [fst] in H; destruct H; try discriminate
  end.

(** The two switches return [PLCRASH_ENOTSUP] or [PLCRASH_EINVAL] when they
    return. *)
Lemma gnueh_ptr_base_code location encoding state s err s' :
  gnueh_ptr_base location encoding state s = inl (err, s') ->
  err = PLCRASH_ENOTSUP.
Proof.
  unfold gnueh_ptr_base. repeat case_if; intros Hret; inversion Hret; reflexivity.
Qed.

Lemma gnueh_ptr_value_code mobj byteorder location encoding state base indeterminate s err s' :
  gnueh_ptr_value mobj byteorder location encoding state base indeterminate s
  = inl (err, s') ->
  err = PLCRASH_ENOTSUP \/ err = PLCRASH_EINVAL.
Proof.
  unfold gnueh_ptr_value,
    plcrash_async_mobject_read_uint16, plcrash_async_mobject_read_uint32,
    plcrash_async_mobject_read_uint64.
  repeat (case_if; try (intros Hret; inversion Hret; auto; fail)).
  - destruct (pl_dwarf_read_umax64 mobj byteorder location 0 (address_size state)
                (st_reads s)) as [[u|] r]; intros Hret; inversion Hret; auto.
  - destruct (plcrash_async_dwarf_read_uleb128 mobj location _) as [e leb].
    case_if; intros Hret; inversion Hret; auto.
  - case_read_uint; intros Hret; inversion Hret; auto.
  - case_read_uint; intros Hret; inversion Hret; auto.
  - case_read_uint; intros Hret; inversion Hret; auto.
  - destruct (plcrash_async_dwarf_read_sleb128 mobj location _) as [e leb].
    case_if; intros Hret; inversion Hret; auto.
  - case_read_uint; intros Hret; inversion Hret; auto.
  - case_read_uint; intros Hret; inversion Hret; auto.
  - case_read_uint; intros Hret; inversion Hret; auto.
Qed.

Lemma gnueh_ptr_direct_not_found mobj byteorder location encoding state indeterminate s s' :
  gnueh_ptr_direct mobj byteorder location encoding state indeterminate s
  = inl (PLCRASH_ENOTFOUND, s') ->
  encoding = DW_EH_PE_omit.
Proof.
  unfold gnueh_ptr_direct.
  destruct (Z.eqb_spec encoding DW_EH_PE_omit) as [e|n]; [intros _; exact e|].
  destruct (gnueh_ptr_base location encoding state (set_size s 0))
    as [[err t]|[[base loc] t]] eqn:Hbase.
  - intros H. inversion H. subst.
    apply gnueh_ptr_base_code in Hbase. discriminate.
  - intros H. apply gnueh_ptr_value_code in H. destruct H; discriminate.
Qed.

Lemma read_gnueh_ptr_not_found mobj byteorder location encoding state indeterminate s :
  fst (plcrash_async_dwarf_read_gnueh_ptr mobj byteorder location encoding state
         indeterminate s) = PLCRASH_ENOTFOUND ->
  encoding = DW_EH_PE_omit.
Proof.
  rewrite read_gnueh_ptr_step.
  destruct (gnueh_ptr_direct mobj byteorder location encoding state indeterminate s)
    as [[err t]|s1] eqn:Hdirect.
  - cbn [fst]. intros ->. eapply gnueh_ptr_direct_not_found. exact Hdirect.
  - case_if; [discriminate|].
    rewrite read_gnueh_ptr_absptr.
    destruct (pl_dwarf_read_umax64 mobj byteorder (st_result s1) 0 (address_size state) _)
      as [[u|] r]; discriminate.
Qed.

Lemma gnueh_ptr_direct_code mobj byteorder location encoding state indeterminate s err s' :
  gnueh_ptr_direct mobj byteorder location encoding state indeterminate s
  = inl (err, s') ->
  err <> PLCRASH_ESUCCESS.
Proof.
  unfold gnueh_ptr_direct. case_if; [intros Hret; inversion Hret; discriminate|].
  destruct (gnueh_ptr_base location encoding state (set_size s 0))
    as [[e t]|[[base loc] t]] eqn:Hbase.
  - intros Hret. inversion Hret. subst.
    apply gnueh_ptr_base_code in Hbase. subst. discriminate.
  - intros Hret. apply gnueh_ptr_value_code in Hret.
    destruct Hret; subst; discriminate.
Qed.

(** The two switches and the test for [DW_EH_PE_omit] do not look at the
    indirect flag of an encoding other than [DW_EH_PE_omit]. *)
Lemma gnueh_ptr_direct_mask mobj byteorder location encoding state indeterminate s :
  encoding <> DW_EH_PE_omit ->
  gnueh_ptr_direct mobj byteorder location (Z.land encoding 0x7F) state indeterminate s
  = gnueh_ptr_direct mobj byteorder location encoding state indeterminate s.
Proof.
  intros Homit. unfold gnueh_ptr_direct.
  assert (Hnot : (Z.land encoding 0x7F =? DW_EH_PE_omit) = false).
  { apply Z.eqb_neq. intros Heq.
    assert (Hbit : Z.land (Z.land encoding 0x7F) 0x80 = 0x80)
      by (rewrite Heq; reflexivity).
    rewrite <- Z.land_assoc in Hbit.
    change (Z.land 0x7F 0x80) with 0 in Hbit.
    rewrite Z.land_0_r in Hbit. discriminate. }
  rewrite Hnot.
  destruct (Z.eqb_spec encoding DW_EH_PE_omit) as [e|_]; [contradiction|].
  unfold gnueh_ptr_base, gnueh_ptr_value.
  rewrite <- !Z.land_assoc.
  change (Z.land 0x7F 0x70) with 0x70. change (Z.land 0x7F 0x0F) with 0x0F.
  reflexivity.
Qed.

(** ** Properties of the encoded-pointer decoder *)

(** C9. With the encoding [DW_EH_PE_omit] the decoder returns
    [PLCRASH_ENOTFOUND] whatever the memory object, the state and the
    location are, and it leaves the output cells and the trace of requests
    as they were: nothing is read. The code is that of no other outcome:
    it differs from the other three, and no other encoding yields it. *)
Theorem C9_omit_is_not_found mobj byteorder location state indeterminate s :
  plcrash_async_dwarf_read_gnueh_ptr mobj byteorder location DW_EH_PE_omit state
    indeterminate s = (PLCRASH_ENOTFOUND, s)
  /\ PLCRASH_ENOTFOUND <> PLCRASH_ENOTSUP
  /\ PLCRASH_ENOTFOUND <> PLCRASH_EINVAL
  /\ PLCRASH_ENOTFOUND <> PLCRASH_ESUCCESS
  /\ (forall encoding,
         fst (plcrash_async_dwarf_read_gnueh_ptr mobj byteorder location encoding
                state indeterminate s) = PLCRASH_ENOTFOUND ->
         encoding = DW_EH_PE_omit).
Proof.
  split; [rewrite read_gnueh_ptr_step; reflexivity|].
  do 3 (split; [discriminate|]).
  intros encoding. apply read_gnueh_ptr_not_found.
Qed.

(** C8. When the encoding is relative to the pc, the text, the data or the
    function and the matching base address of the state is
    [PL_VM_ADDRESS_INVALID], the decoder returns [PLCRASH_ENOTSUP], which is
    not [PLCRASH_EINVAL], and the trace of requests to the memory object is
    as it was: the call sets [size] to 0 and reads nothing. *)
Theorem C8_missing_base_is_unsupported mobj byteorder location encoding state
    indeterminate s :
  (Z.land encoding 0x70 = DW_EH_PE_pcrel /\ pc_rel_base state = PL_VM_ADDRESS_INVALID)
  \/ (Z.land encoding 0x70 = DW_EH_PE_textrel /\ text_base state = PL_VM_ADDRESS_INVALID)
  \/ (Z.land encoding 0x70 = DW_EH_PE_datarel /\ data_base state = PL_VM_ADDRESS_INVALID)
  \/ (Z.land encoding 0x70 = DW_EH_PE_funcrel /\ func_base state = PL_VM_ADDRESS_INVALID) ->
  plcrash_async_dwarf_read_gnueh_ptr mobj byteorder location encoding state
    indeterminate s = (PLCRASH_ENOTSUP, set_size s 0)
  /\ st_reads (snd (plcrash_async_dwarf_read_gnueh_ptr mobj byteorder location
                      encoding state indeterminate s)) = st_reads s
  /\ PLCRASH_ENOTSUP <> PLCRASH_EINVAL.
Proof using vm_bits.
  intros Hclass.
  assert (Hres : plcrash_async_dwarf_read_gnueh_ptr mobj byteorder location encoding
                   state indeterminate s = (PLCRASH_ENOTSUP, set_size s 0)).
  { rewrite read_gnueh_ptr_step. unfold gnueh_ptr_direct.
    destruct (Z.eqb_spec encoding DW_EH_PE_omit) as [e|n].
    - subst encoding.
      destruct Hclass as [[Hc _]|[[Hc _]|[[Hc _]|[Hc _]]]]; discriminate Hc.
    - unfold gnueh_ptr_base.
      destruct Hclass as [[Hc Hb]|[[Hc Hb]|[[Hc Hb]|[Hc Hb]]]];
        rewrite Hc, Hb; cbn [Z.eqb DW_EH_PE_pcrel DW_EH_PE_absptr DW_EH_PE_textrel
                               DW_EH_PE_datarel DW_EH_PE_funcrel Pos.eqb];
        rewrite Z.eqb_refl; reflexivity. }
  rewrite Hres. split; [reflexivity|]. split; [reflexivity|discriminate].
Qed.

(** C3. When the indirect flag of the encoding is set and the value that
    the encoding without the flag describes has been decoded, to the store
    [s1], the decoder makes one more call, for a plain [DW_EH_PE_absptr] at
    the address just computed and with the same state: one fixed-width read
    of [address_size] bytes, with base 0. Its value is the result, and the
    size is the one of [s1], the bytes consumed at the first location. For
    [absptr|indirect] and an address size of 8, when the bytes at
    [location] read as [A] and those at [A] read as [B], the result is [B]
    and the size 8. *)
Theorem C3_indirect_reads_absptr_once mobj byteorder location state indeterminate s :
  (forall encoding s1,
      Z.land encoding DW_EH_PE_indirect <> 0 ->
      plcrash_async_dwarf_read_gnueh_ptr mobj byteorder location
        (Z.land encoding 0x7F) state indeterminate s = (PLCRASH_ESUCCESS, s1) ->
      plcrash_async_dwarf_read_gnueh_ptr mobj byteorder location encoding state
        indeterminate s =
      match pl_dwarf_read_umax64 mobj byteorder (st_result s1) 0 (address_size state)
              (st_reads s1) with
      | (Some target, reads) =>
          (PLCRASH_ESUCCESS,
           {| st_result := pl_vm_address_t (target + 0);
              st_size := st_size s1;
              st_reads := reads |})
      | (None, reads) =>
          (PLCRASH_EINVAL,
           {| st_result := st_result s1; st_size := st_size s1; st_reads := reads |})
      end
      /\ snd (pl_dwarf_read_umax64 mobj byteorder (st_result s1) 0 (address_size state)
                (st_reads s1))
         = requested (st_reads s1) (st_result s1) 0 (address_size state))
  /\ (forall A B,
         address_size state = 8 ->
         0 <= A <= PL_VM_ADDRESS_MAX ->
         0 <= B <= PL_VM_ADDRESS_MAX ->
         fst (pl_dwarf_read_umax64 mobj byteorder location 0 8 (st_reads s)) = Some A ->
         fst (pl_dwarf_read_umax64 mobj byteorder A 0 8 (st_reads s)) = Some B ->
         plcrash_async_dwarf_read_gnueh_ptr mobj byteorder location
           (Z.lor DW_EH_PE_absptr DW_EH_PE_indirect) state indeterminate s =
         (PLCRASH_ESUCCESS,
          {| st_result := B; st_size := 8;
             st_reads := requested (requested (st_reads s) location 0 8) A 0 8 |})).
Proof.
  split.
  - intros encoding s1 Hind Hfirst.
    split; [|apply pl_dwarf_read_umax64_reads].
    assert (Homit : encoding <> DW_EH_PE_omit).
    { intros ->. rewrite read_gnueh_ptr_plain in Hfirst by reflexivity.
      discriminate Hfirst. }
    rewrite read_gnueh_ptr_plain in Hfirst.
    2:{ rewrite <- Z.land_assoc. apply Z.land_0_r. }
    rewrite gnueh_ptr_direct_mask in Hfirst by exact Homit.
    rewrite read_gnueh_ptr_step.
    destruct (gnueh_ptr_direct mobj byteorder location encoding state indeterminate s)
      as [[err t]|s1'] eqn:Hdirect.
    + apply gnueh_ptr_direct_code in Hdirect. inversion Hfirst. contradiction.
    + inversion Hfirst. subst s1'.
      destruct (Z.eqb_spec (Z.land encoding DW_EH_PE_indirect) 0); [contradiction|].
      rewrite read_gnueh_ptr_absptr. cbn [set_size st_reads st_result].
      destruct (pl_dwarf_read_umax64 mobj byteorder (st_result s1) 0
                  (address_size state) (st_reads s1)) as [[u|] r]; reflexivity.
  - intros A B Hsize HA HB HreadA HreadB.
    assert (Hwrap : forall x, 0 <= x <= PL_VM_ADDRESS_MAX -> pl_vm_address_t (x + 0) = x).
    { intros x Hx. unfold pl_vm_address_t, uint, PL_VM_ADDRESS_MAX in *.
      rewrite Z.add_0_r. apply Z.mod_small. lia. }
    rewrite read_gnueh_ptr_step.
    unfold gnueh_ptr_direct. cbn [Z.lor DW_EH_PE_absptr DW_EH_PE_indirect Z.eqb
                                    DW_EH_PE_omit Pos.eqb].
    unfold gnueh_ptr_base, gnueh_ptr_value. cbn -[pl_dwarf_read_umax64 Z.add].
    rewrite Hsize.
    pose proof (pl_dwarf_read_umax64_reads mobj byteorder location 0 8 (st_reads s)) as Hr.
    destruct (pl_dwarf_read_umax64 mobj byteorder location 0 8 (st_reads s))
      as [v r]. cbn [fst snd] in *. subst v r.
    rewrite read_gnueh_ptr_absptr. cbn [set_size gnueh_ptr_store st_reads st_result st_size].
    rewrite Hsize, Hwrap by exact HA.
    rewrite (pl_dwarf_read_umax64_value mobj byteorder A 0 8 (st_reads s)
               (requested (st_reads s) location 0 8)) in HreadB.
    pose proof (pl_dwarf_read_umax64_reads mobj byteorder A 0 8
                  (requested (st_reads s) location 0 8)) as Hr.
    destruct (pl_dwarf_read_umax64 mobj byteorder A 0 8
                (requested (st_reads s) location 0 8)) as [v r].
    cbn [fst snd] in *. subst v r.
    rewrite Hwrap by exact HB.
    rewrite pl_vm_size_t_small by (cbn; lia). reflexivity.
Qed.

(** ** The LEB128 cases of the second switch *)

Lemma PL_VM_ADDRESS_MAX_pos : 0 < PL_VM_ADDRESS_MAX.
Proof.
  unfold PL_VM_ADDRESS_MAX. destruct vm_bits_supported as [-> | ->]; reflexivity.
Qed.

Lemma PL_VM_OFF_range : PL_VM_OFF_MIN < 0 < PL_VM_OFF_MAX.
Proof.
  unfold PL_VM_OFF_MIN, PL_VM_OFF_MAX.
  destruct vm_bits_supported as [-> | ->]; split; reflexivity.
Qed.

Lemma pl_vm_size_t_idem (x : Z) : pl_vm_size_t (0 + pl_vm_address_t x) = pl_vm_size_t x.
Proof.
  unfold pl_vm_size_t, pl_vm_address_t, uint. rewrite Z.add_0_l.
  apply Z.mod_mod. destruct vm_bits_supported as [-> | ->]; discriminate.
Qed.

Lemma pl_vm_address_t_0 : pl_vm_address_t (0 + 0) = 0.
Proof. unfold pl_vm_address_t, uint. apply Z.mod_0_l.
  destruct vm_bits_supported as [-> | ->]; discriminate.
Qed.

Lemma gnueh_ptr_base_absolute location encoding state s :
  Z.land encoding 0x70 = DW_EH_PE_absptr ->
  gnueh_ptr_base location encoding state s = inr (0, location, s).
Proof. unfold gnueh_ptr_base. intros ->. reflexivity. Qed.

Lemma gnueh_ptr_value_uleb128 mobj byteorder location encoding state base indeterminate s :
  Z.land encoding 0x0F = DW_EH_PE_uleb128 ->
  gnueh_ptr_value mobj byteorder location encoding state base indeterminate s =
  let leb :=
    snd (plcrash_async_dwarf_read_uleb128 mobj location
           {| st_result := indeterminate; st_size := pl_vm_address_t indeterminate;
              st_reads := st_reads s |}) in
  if st_result leb >? PL_VM_ADDRESS_MAX
  then inl (PLCRASH_ENOTSUP, set_reads s (st_reads leb))
  else inr (gnueh_ptr_store s (st_result leb) base (st_size leb) (st_reads leb)).
Proof.
  unfold gnueh_ptr_value. intros ->.
  cbn [Z.eqb Pos.eqb DW_EH_PE_uleb128 DW_EH_PE_absptr].
  destruct (plcrash_async_dwarf_read_uleb128 mobj location _) as [err leb].
  reflexivity.
Qed.

Lemma gnueh_ptr_value_sleb128 mobj byteorder location encoding state base indeterminate s :
  Z.land encoding 0x0F = DW_EH_PE_sleb128 ->
  gnueh_ptr_value mobj byteorder location encoding state base indeterminate s =
  let leb :=
    snd (plcrash_async_dwarf_read_sleb128 mobj location
           {| st_result := indeterminate; st_size := pl_vm_size_t indeterminate;
              st_reads := st_reads s |}) in
  if (st_result leb >? PL_VM_OFF_MAX) || (st_result leb <? PL_VM_OFF_MIN)
  then inl (PLCRASH_ENOTSUP, set_reads s (st_reads leb))
  else inr (gnueh_ptr_store s (st_result leb) base (st_size leb) (st_reads leb)).
Proof.
  unfold gnueh_ptr_value. intros ->.
  cbn [Z.eqb Pos.eqb DW_EH_PE_sleb128 DW_EH_PE_uleb128 DW_EH_PE_absptr
       DW_EH_PE_udata2 DW_EH_PE_udata4 DW_EH_PE_udata8].
  destruct (plcrash_async_dwarf_read_sleb128 mobj location _) as [err leb].
  reflexivity.
Qed.

(** With nothing mapped at [location], the decoder called for a plain
    [DW_EH_PE_uleb128] goes on past the failed call of the ULEB128 decoder:
    it returns success, and [size] holds what the local [uleb_size], which
    was never written, happened to hold. *)
Lemma read_gnueh_ptr_uleb128_unmapped mobj byteorder location state indeterminate s :
  plcrash_async_mobject_remap_address mobj location 0 1 = None ->
  plcrash_async_dwarf_read_gnueh_ptr mobj byteorder location DW_EH_PE_uleb128 state
    indeterminate s =
  (PLCRASH_ESUCCESS,
   {| st_result := 0; st_size := pl_vm_size_t indeterminate;
      st_reads := requested (st_reads s) location 0 1 |}).
Proof.
  intros Hnone. rewrite read_gnueh_ptr_plain by reflexivity.
  unfold gnueh_ptr_direct. cbn [Z.eqb DW_EH_PE_uleb128 DW_EH_PE_omit Pos.eqb].
  rewrite gnueh_ptr_base_absolute by reflexivity.
  rewrite gnueh_ptr_value_uleb128 by reflexivity.
  unfold plcrash_async_dwarf_read_uleb128.
  rewrite leb128_loop_unmapped by exact Hnone.
  cbn [snd st_result st_size st_reads leb_result leb_reads set_size].
  cbv zeta.
  pose proof PL_VM_ADDRESS_MAX_pos.
  destruct (Z.gtb_spec 0 PL_VM_ADDRESS_MAX); [lia|].
  unfold gnueh_ptr_store. cbn [st_size].
  rewrite pl_vm_size_t_idem, pl_vm_address_t_0. reflexivity.
Qed.

(** The same for a plain [DW_EH_PE_sleb128]. *)
Lemma read_gnueh_ptr_sleb128_unmapped mobj byteorder location state indeterminate s :
  plcrash_async_mobject_remap_address mobj location 0 1 = None ->
  plcrash_async_dwarf_read_gnueh_ptr mobj byteorder location DW_EH_PE_sleb128 state
    indeterminate s =
  (PLCRASH_ESUCCESS,
   {| st_result := 0; st_size := pl_vm_size_t indeterminate;
      st_reads := requested (st_reads s) location 0 1 |}).
Proof.
  intros Hnone. rewrite read_gnueh_ptr_plain by reflexivity.
  unfold gnueh_ptr_direct. cbn [Z.eqb DW_EH_PE_sleb128 DW_EH_PE_omit Pos.eqb].
  rewrite gnueh_ptr_base_absolute by reflexivity.
  rewrite gnueh_ptr_value_sleb128 by reflexivity.
  unfold plcrash_async_dwarf_read_sleb128.
  rewrite leb128_loop_unmapped by exact Hnone.
  cbn [snd st_result st_size st_reads leb_result leb_reads set_size].
  cbv zeta.
  pose proof PL_VM_OFF_range.
  destruct (Z.gtb_spec 0 PL_VM_OFF_MAX); [lia|].
  destruct (Z.ltb_spec 0 PL_VM_OFF_MIN); [lia|].
  cbn [orb]. unfold gnueh_ptr_store. cbn [st_size].
  unfold pl_vm_size_t at 2. fold pl_vm_address_t.
  rewrite pl_vm_size_t_idem, pl_vm_address_t_0. reflexivity.
Qed.

(** With ten bytes that have the continuation bit set at [location], the
    ULEB128 decoder fails with [PLCRASH_ENOTSUP]; the decoder called for a
    plain [DW_EH_PE_uleb128] returns success all the same when the bits
    gathered so far fit an address. *)
Lemma read_gnueh_ptr_uleb128_oversized mobj byteorder location state indeterminate s bs :
  length bs = 10%nat ->
  stored_at mobj location 0 bs ->
  forallb continues bs = true ->
  leb128_accumulate uint64_t 0 0 bs <= PL_VM_ADDRESS_MAX ->
  plcrash_async_dwarf_read_gnueh_ptr mobj byteorder location DW_EH_PE_uleb128 state
    indeterminate s =
  (PLCRASH_ESUCCESS,
   {| st_result := pl_vm_address_t (leb128_accumulate uint64_t 0 0 bs + 0);
      st_size := pl_vm_size_t indeterminate;
      st_reads := leb128_requests location 0 10 (st_reads s) |}).
Proof.
  intros Hlen Hst Hc Hfit. rewrite read_gnueh_ptr_plain by reflexivity.
  unfold gnueh_ptr_direct. cbn [Z.eqb DW_EH_PE_uleb128 DW_EH_PE_omit Pos.eqb].
  rewrite gnueh_ptr_base_absolute by reflexivity.
  rewrite gnueh_ptr_value_uleb128 by reflexivity.
  unfold plcrash_async_dwarf_read_uleb128.
  rewrite (leb128_loop_ten_continued uint64_t mobj location _ bs) by assumption.
  cbn [snd st_result st_size st_reads leb_result leb_reads set_size].
  cbv zeta.
  destruct (Z.gtb_spec (leb128_accumulate uint64_t 0 0 bs) PL_VM_ADDRESS_MAX); [lia|].
  unfold gnueh_ptr_store. cbn [st_size].
  rewrite pl_vm_size_t_idem. reflexivity.
Qed.

(** ** Further properties: the fixed-width reader *)

Lemma byte_value_range (b : byte) : 0 <= byte_value b < 256.
Proof.
  unfold byte_value. pose proof (Byte.to_N_bounded b). lia.
Qed.

Lemma uint_range (w x : Z) : 0 <= w -> 0 <= uint w x < 2 ^ w.
Proof.
  intros Hw. unfold uint. apply Z.mod_pos_bound. apply Z.pow_pos_nonneg; lia.
Qed.

Lemma uint64_small (x : Z) : 0 <= x < 18446744073709551616 -> uint64_t x = x.
Proof. intros Hx. apply Z.mod_small. exact Hx. Qed.

(** A [switch] on the width: it is one of the four widths or the default
    case is taken. *)
Lemma width_cases (A : Type) (d : Z) (a b c e z : A) :
  (d = 1 \/ d = 2 \/ d = 4 \/ d = 8)
  \/ match d with 1 => a | 2 => b | 4 => c | 8 => e | _ => z end = z.
Proof.
  destruct d as [|p|p]; try (right; reflexivity).
  do 4 (try destruct p as [p|p|]); try (right; reflexivity); left; auto.
Qed.

(** X1. [pl_dwarf_read_umax64] returns true exactly when the width is 1, 2,
    4 or 8 and the bytes are mapped; it makes one request for [data_size]
    bytes whatever the outcome; and the value it stores is not sign
    extended: it is below [2 ^ (8 * data_size)]. *)
Theorem X1_read_umax64_width_and_range mobj byteorder base_addr offset data_size reads :
  (fst (pl_dwarf_read_umax64 mobj byteorder base_addr offset data_size reads) <> None
   <-> (data_size = 1 \/ data_size = 2 \/ data_size = 4 \/ data_size = 8)
       /\ plcrash_async_mobject_remap_address mobj base_addr offset data_size <> None)
  /\ snd (pl_dwarf_read_umax64 mobj byteorder base_addr offset data_size reads)
     = requested reads base_addr offset data_size
  /\ (forall v,
         fst (pl_dwarf_read_umax64 mobj byteorder base_addr offset data_size reads)
         = Some v ->
         0 <= v < 2 ^ (8 * data_size)).
Proof.
  split; [|split; [apply pl_dwarf_read_umax64_reads|]].
  - unfold pl_dwarf_read_umax64.
    destruct (plcrash_async_mobject_remap_address mobj base_addr offset data_size)
      as [data|]; cbn [fst].
    + destruct (width_cases _ data_size
                  (Some (uint64_t (load_uint8 data)))
                  (Some (uint64_t (uint16_t (swap16 byteorder (load_uint data)))))
                  (Some (uint64_t (uint32_t (swap32 byteorder (load_uint data)))))
                  (Some (uint64_t (swap64 byteorder (load_uint data))))
                  None) as [Hw|Hz].
      * split; [intros _; split; [exact Hw|discriminate]|].
        intros _. destruct Hw as [-> | [-> | [-> | ->]]]; discriminate.
      * rewrite Hz. split; [intros H; contradiction|].
        intros [[-> | [-> | [-> | ->]]] _]; discriminate Hz.
    + split; [intros H; contradiction|]. intros [_ H]. contradiction.
  - intros v. unfold pl_dwarf_read_umax64.
    destruct (plcrash_async_mobject_remap_address mobj base_addr offset data_size)
      as [data|]; cbn [fst]; [|discriminate].
    destruct (width_cases _ data_size
                (Some (uint64_t (load_uint8 data)))
                (Some (uint64_t (uint16_t (swap16 byteorder (load_uint data)))))
                (Some (uint64_t (uint32_t (swap32 byteorder (load_uint data)))))
                (Some (uint64_t (swap64 byteorder (load_uint data))))
                None) as [Hw|Hz]; [|rewrite Hz; discriminate].
    destruct Hw as [-> | [-> | [-> | ->]]]; intros Hv; inversion Hv; subst v.
    + assert (Hb : 0 <= load_uint8 data < 256).
      { destruct data as [|b0 data]; cbn [load_uint8]; [lia|apply byte_value_range]. }
      rewrite uint64_small by lia. exact Hb.
    + pose proof (uint_range 16 (swap16 byteorder (load_uint data)) ltac:(lia)) as Hb.
      unfold uint16_t. change (2 ^ 16) with 65536 in Hb.
      rewrite uint64_small by lia. exact Hb.
    + pose proof (uint_range 32 (swap32 byteorder (load_uint data)) ltac:(lia)) as Hb.
      unfold uint32_t. change (2 ^ 32) with 4294967296 in Hb.
      rewrite uint64_small by lia. exact Hb.
    + apply (uint_range 64). lia.
Qed.

(** ** Further properties: the two switches *)

Ltac case_eqb :=
  match goal with
  | |- context [Z.eqb ?a ?b] => destruct (Z.eqb_spec a b)
  end.

Lemma class_base_not_omit encoding state base :
  class_base encoding state = Some base -> encoding <> DW_EH_PE_omit.
Proof.
  intros Hclass ->. discriminate Hclass.
Qed.

(** The first switch on an encoding whose class has its base. *)
Lemma gnueh_ptr_base_class location encoding state s base :
  class_base encoding state = Some base ->
  gnueh_ptr_base location encoding state s = inr (base, location, s).
Proof.
  unfold class_base, gnueh_ptr_base.
  repeat (case_eqb; try (intros Hsome; (discriminate Hsome
                                        || (inversion Hsome; subst; reflexivity))));
    match goal with
    | H1 : ?x = _, H2 : ?x = _ |- _ => rewrite H1 in H2; discriminate H2
    end.
Qed.

(** The first switch leaves the cell of [result] and the trace as they are;
    when it returns, it leaves the whole store. *)
Lemma gnueh_ptr_base_keeps location encoding state s :
  match gnueh_ptr_base location encoding state s with
  | inl (err, s') => err = PLCRASH_ENOTSUP /\ s' = s
  | inr (_, _, s') => st_result s' = st_result s /\ st_reads s' = st_reads s
  end.
Proof.
  unfold gnueh_ptr_base. repeat case_eqb; cbn; auto.
Qed.

(** The second switch on a representation of fixed width whose bytes are
    not mapped. *)
Lemma gnueh_ptr_value_fixed_unmapped mobj byteorder location encoding state base
    indeterminate s w :
  fixed_width encoding state = Some w ->
  plcrash_async_mobject_remap_address mobj location 0 w = None ->
  gnueh_ptr_value mobj byteorder location encoding state base indeterminate s
  = inl (PLCRASH_EINVAL, set_reads s (requested (st_reads s) location 0 w)).
Proof.
  unfold fixed_width, gnueh_ptr_value,
    plcrash_async_mobject_read_uint16, plcrash_async_mobject_read_uint32,
    plcrash_async_mobject_read_uint64, plcrash_async_mobject_read_uint,
    pl_dwarf_read_umax64.
  repeat (case_eqb; cbn [orb];
          try (intros Hsome Hnone; inversion Hsome; subst w; rewrite Hnone;
               reflexivity));
    try (intros Hsome; discriminate Hsome);
    match goal with
    | H1 : ?x = _, H2 : ?x = _ |- _ => rewrite H1 in H2; discriminate H2
    end.
Qed.

(** The second switch on a representation it has no case for. *)
Lemma gnueh_ptr_value_unknown mobj byteorder location encoding state base
    indeterminate s :
  known_representation (Z.land encoding 0x0F) = false ->
  gnueh_ptr_value mobj byteorder location encoding state base indeterminate s
  = inl (PLCRASH_ENOTSUP, s).
Proof.
  unfold known_representation, gnueh_ptr_value.
  repeat (case_eqb; cbn [orb]; try (intros Hknown; discriminate Hknown)).
  reflexivity.
Qed.

(** X2. The representations of fixed width return the failure of their
    read: for one of the five classes that read at [location] itself,
    [absptr], [pcrel], [textrel], [datarel] and [funcrel], with its base
    available, and one of [absptr], [udata2/4/8] and [sdata2/4/8], when the
    bytes of that width are not mapped at [location] the decoder returns
    [PLCRASH_EINVAL] after that one request, with the cell of [result] as it
    was and [size] at 0; the indirect flag plays no part. The class
    [DW_EH_PE_aligned] is not covered: it reads at the moved location and
    has the bytes skipped in [size]. *)
Theorem X2_fixed_width_failure_is_returned mobj byteorder location encoding state
    indeterminate s base w :
  class_base encoding state = Some base ->
  fixed_width encoding state = Some w ->
  plcrash_async_mobject_remap_address mobj location 0 w = None ->
  plcrash_async_dwarf_read_gnueh_ptr mobj byteorder location encoding state
    indeterminate s
  = (PLCRASH_EINVAL,
     {| st_result := st_result s; st_size := 0;
        st_reads := requested (st_reads s) location 0 w |}).
Proof using vm_bits.
  intros Hclass Hwidth Hnone.
  pose proof (class_base_not_omit _ _ _ Hclass) as Homit.
  rewrite read_gnueh_ptr_step. unfold gnueh_ptr_direct.
  destruct (Z.eqb_spec encoding DW_EH_PE_omit); [contradiction|].
  rewrite (gnueh_ptr_base_class _ _ _ _ _ Hclass).
  rewrite (gnueh_ptr_value_fixed_unmapped _ _ _ _ _ _ _ _ _ Hwidth Hnone).
  reflexivity.
Qed.

(** X3. Bits of the encoding that the switches have no case for give
    [PLCRASH_ENOTSUP] before anything is read: a class of [0x60] or [0x70],
    or a representation other than the nine known ones, in an encoding that
    is not [DW_EH_PE_omit]. The cell of [result] and the trace are as they
    were. *)
Theorem X3_unknown_bits_are_unsupported mobj byteorder location encoding state
    indeterminate s :
  encoding <> DW_EH_PE_omit ->
  Z.land encoding 0x70 = 0x60 \/ Z.land encoding 0x70 = 0x70
  \/ known_representation (Z.land encoding 0x0F) = false ->
  fst (plcrash_async_dwarf_read_gnueh_ptr mobj byteorder location encoding state
         indeterminate s) = PLCRASH_ENOTSUP
  /\ st_result (snd (plcrash_async_dwarf_read_gnueh_ptr mobj byteorder location
                       encoding state indeterminate s)) = st_result s
  /\ st_reads (snd (plcrash_async_dwarf_read_gnueh_ptr mobj byteorder location
                      encoding state indeterminate s)) = st_reads s.
Proof using vm_bits.
  intros Homit Hbits.
  rewrite read_gnueh_ptr_step. unfold gnueh_ptr_direct.
  destruct (Z.eqb_spec encoding DW_EH_PE_omit); [contradiction|].
  pose proof (gnueh_ptr_base_keeps location encoding state (set_size s 0)) as Hkeep.
  destruct (gnueh_ptr_base location encoding state (set_size s 0))
    as [[err t]|[[base loc] t]] eqn:Hbase.
  - destruct Hkeep as [-> ->]. cbn. auto.
  - destruct Hkeep as [Hres Hreads].
    destruct Hbits as [Hclass|[Hclass|Hrepr]].
    + unfold gnueh_ptr_base in Hbase. rewrite Hclass in Hbase. discriminate Hbase.
    + unfold gnueh_ptr_base in Hbase. rewrite Hclass in Hbase. discriminate Hbase.
    + rewrite gnueh_ptr_value_unknown by exact Hrepr. cbn [fst snd]. auto.
Qed.

(** X4. For the class [DW_EH_PE_aligned], when the VM address or the base
    address of the frame section is [PL_VM_ADDRESS_INVALID], the decoder
    returns [PLCRASH_ENOTSUP] with [size] at 0 and nothing read. *)
Theorem X4_aligned_without_section_is_unsupported mobj byteorder location encoding
    state indeterminate s :
  Z.land encoding 0x70 = DW_EH_PE_aligned ->
  frame_section_vm_addr state = PL_VM_ADDRESS_INVALID
  \/ frame_section_base state = PL_VM_ADDRESS_INVALID ->
  plcrash_async_dwarf_read_gnueh_ptr mobj byteorder location encoding state
    indeterminate s = (PLCRASH_ENOTSUP, set_size s 0).
Proof using vm_bits.
  intros Hclass Hmissing.
  rewrite read_gnueh_ptr_step. unfold gnueh_ptr_direct.
  destruct (Z.eqb_spec encoding DW_EH_PE_omit) as [->|_]; [discriminate Hclass|].
  unfold gnueh_ptr_base. rewrite Hclass.
  cbn [Z.eqb Pos.eqb DW_EH_PE_pcrel DW_EH_PE_absptr DW_EH_PE_textrel
       DW_EH_PE_datarel DW_EH_PE_funcrel DW_EH_PE_aligned].
  destruct Hmissing as [-> | ->]; rewrite Z.eqb_refl; [reflexivity|].
  destruct (frame_section_vm_addr state =? PL_VM_ADDRESS_INVALID); reflexivity.
Qed.

(** ** Further properties: signed and unsigned data *)

(** A signed datum at least as wide as an address adds to a base like the
    unsigned one. *)
Lemma pl_vm_address_t_signed (w v base : Z) :
  (w = 32 /\ vm_bits = 32) \/ w = 64 ->
  pl_vm_address_t (sint w v + base) = pl_vm_address_t (v + base).
Proof.
  intros Hw. unfold pl_vm_address_t, uint, sint.
  assert (Hcases : (w = 32 /\ vm_bits = 32) \/ (w = 64 /\ vm_bits = 32)
                   \/ (w = 64 /\ vm_bits = 64))
    by (destruct vm_bits_supported; destruct Hw as [[? ?]|?]; auto; lia).
  destruct Hcases as [[-> ->]|[[-> ->]|[-> ->]]].
  - change (2 ^ (32 - 1)) with 2147483648. change (2 ^ 32) with 4294967296.
    pose proof (Z.div_mod (v + 2147483648) 4294967296 ltac:(lia)) as Hd.
    replace ((v + 2147483648) mod 4294967296 - 2147483648 + base)
      with (v + base + (- ((v + 2147483648) / 4294967296)) * 4294967296) by lia.
    apply Z_mod_plus_full.
  - change (2 ^ (64 - 1)) with 9223372036854775808.
    change (2 ^ 64) with 18446744073709551616. change (2 ^ 32) with 4294967296.
    pose proof (Z.div_mod (v + 9223372036854775808) 18446744073709551616
                  ltac:(lia)) as Hd.
    replace ((v + 9223372036854775808) mod 18446744073709551616
             - 9223372036854775808 + base)
      with (v + base
            + (- ((v + 9223372036854775808) / 18446744073709551616) * 4294967296)
              * 4294967296) by lia.
    apply Z_mod_plus_full.
  - change (2 ^ (64 - 1)) with 9223372036854775808.
    change (2 ^ 64) with 18446744073709551616.
    pose proof (Z.div_mod (v + 9223372036854775808) 18446744073709551616
                  ltac:(lia)) as Hd.
    replace ((v + 9223372036854775808) mod 18446744073709551616
             - 9223372036854775808 + base)
      with (v + base
            + (- ((v + 9223372036854775808) / 18446744073709551616))
              * 18446744073709551616) by lia.
    apply Z_mod_plus_full.
Qed.

Lemma gnueh_ptr_base_of_class location encoding encoding' state s :
  Z.land encoding' 0x70 = Z.land encoding 0x70 ->
  gnueh_ptr_base location encoding' state s = gnueh_ptr_base location encoding state s.
Proof. unfold gnueh_ptr_base. intros ->. reflexivity. Qed.

Lemma land_lor_8 (encoding mask : Z) :
  Z.land 0x08 mask = 0 ->
  Z.land (Z.lor encoding 0x08) mask = Z.land encoding mask.
Proof.
  intros Hmask. rewrite Z.land_lor_distr_l, Hmask. apply Z.lor_0_r.
Qed.

(** X5. A signed datum that is as wide as an address decodes like the
    unsigned datum of its width: with addresses of 64 bits [sdata8] like
    [udata8], and with addresses of 32 bits [sdata4] like [udata4]. Setting
    bit 3 of such an encoding changes nothing in the outcome. *)
Theorem X5_wide_signed_data_as_unsigned mobj byteorder location encoding state
    indeterminate s :
  (vm_bits = 64 /\ Z.land encoding 0x0F = DW_EH_PE_udata8)
  \/ (vm_bits = 32 /\ Z.land encoding 0x0F = DW_EH_PE_udata4) ->
  plcrash_async_dwarf_read_gnueh_ptr mobj byteorder location (Z.lor encoding 0x08)
    state indeterminate s
  = plcrash_async_dwarf_read_gnueh_ptr mobj byteorder location encoding state
      indeterminate s.
Proof.
  intros Hrepr.
  assert (Hlow : Z.land (Z.lor encoding 0x08) 0x0F = Z.lor (Z.land encoding 0x0F) 0x08)
    by (rewrite Z.land_lor_distr_l; reflexivity).
  assert (Homit : encoding <> DW_EH_PE_omit)
    by (intros ->; destruct Hrepr as [[_ H]|[_ H]]; discriminate H).
  assert (Homit' : Z.lor encoding 0x08 <> DW_EH_PE_omit).
  { intros Heq. rewrite Heq in Hlow.
    destruct Hrepr as [[_ H]|[_ H]]; rewrite H in Hlow; discriminate Hlow. }
  assert (Hdirect :
            gnueh_ptr_direct mobj byteorder location (Z.lor encoding 0x08) state
              indeterminate s
            = gnueh_ptr_direct mobj byteorder location encoding state indeterminate s).
  { unfold gnueh_ptr_direct.
    destruct (Z.eqb_spec encoding DW_EH_PE_omit); [contradiction|].
    destruct (Z.eqb_spec (Z.lor encoding 0x08) DW_EH_PE_omit); [contradiction|].
    rewrite (gnueh_ptr_base_of_class location encoding (Z.lor encoding 0x08))
      by (apply land_lor_8; reflexivity).
    destruct (gnueh_ptr_base location encoding state (set_size s 0))
      as [ret|[[base loc] t]]; [reflexivity|].
    unfold gnueh_ptr_value. rewrite Hlow.
    unfold plcrash_async_mobject_read_uint64, plcrash_async_mobject_read_uint32,
      plcrash_async_mobject_read_uint, gnueh_ptr_store, int64_t, int32_t.
    destruct Hrepr as [[H64 H]|[H32 H]]; rewrite H;
      cbn [Z.lor Pos.lor Z.eqb Pos.eqb DW_EH_PE_udata8 DW_EH_PE_udata4
           DW_EH_PE_absptr DW_EH_PE_uleb128 DW_EH_PE_udata2 DW_EH_PE_sleb128
           DW_EH_PE_sdata2 DW_EH_PE_sdata4 DW_EH_PE_sdata8].
    - destruct (plcrash_async_mobject_remap_address mobj loc 0 8); [|reflexivity].
      rewrite pl_vm_address_t_signed by auto. reflexivity.
    - destruct (plcrash_async_mobject_remap_address mobj loc 0 4); [|reflexivity].
      rewrite pl_vm_address_t_signed by auto. reflexivity. }
  rewrite (read_gnueh_ptr_step _ _ _ (Z.lor encoding 0x08)).
  rewrite (read_gnueh_ptr_step _ _ _ encoding).
  rewrite Hdirect.
  rewrite (land_lor_8 encoding DW_EH_PE_indirect) by reflexivity.
  reflexivity.
Qed.

(** ** Further properties: bounds on the requests *)

Lemma leb128_decoders_requests_bound mobj location s :
  (length (st_reads (snd (plcrash_async_dwarf_read_uleb128 mobj location s)))
   <= length (st_reads s) + 10)%nat
  /\ (length (st_reads (snd (plcrash_async_dwarf_read_sleb128 mobj location s)))
      <= length (st_reads s) + 10)%nat.
Proof.
  unfold plcrash_async_dwarf_read_uleb128, plcrash_async_dwarf_read_sleb128.
  pose proof (leb128_loop_requests_bound uint64_t mobj location 10 0 0 0 (st_reads s)
                ltac:(lia) ltac:(lia)) as Hu.
  pose proof (leb128_loop_requests_bound int64_t mobj location 10 0 0 0 (st_reads s)
                ltac:(lia) ltac:(lia)) as Hs.
  destruct (leb128_loop uint64_t mobj location 0 0 0 (st_reads s)) as [[eu|[pu|]] vu];
    destruct (leb128_loop int64_t mobj location 0 0 0 (st_reads s)) as [[es|[ps|]] vs];
    cbn in *; split; assumption.
Qed.

(** X6. The SLEB128 decoder has the limit of the unsigned one: ten bytes
    with the continuation bit set at [location] make it fail with
    [PLCRASH_ENOTSUP], [size] unwritten, after ten requests, and on every
    input it requests at most ten bytes. *)
Theorem X6_sleb128_oversized_is_unsupported mobj location s :
  (forall bs,
      length bs = 10%nat ->
      stored_at mobj location 0 bs ->
      forallb continues bs = true ->
      fst (plcrash_async_dwarf_read_sleb128 mobj location s) = PLCRASH_ENOTSUP
      /\ st_size (snd (plcrash_async_dwarf_read_sleb128 mobj location s)) = st_size s
      /\ st_reads (snd (plcrash_async_dwarf_read_sleb128 mobj location s))
         = leb128_requests location 0 10 (st_reads s))
  /\ (length (st_reads (snd (plcrash_async_dwarf_read_sleb128 mobj location s)))
      <= length (st_reads s) + 10)%nat.
Proof.
  split; [|apply leb128_decoders_requests_bound].
  intros bs Hlen Hst Hc. unfold plcrash_async_dwarf_read_sleb128.
  rewrite (leb128_loop_ten_continued int64_t mobj location (st_reads s) bs)
    by assumption.
  cbn. auto.
Qed.

Lemma requested_length reads address offset len :
  length (requested reads address offset len) = (length reads + 1)%nat.
Proof. unfold requested. rewrite length_app. reflexivity. Qed.

(** The second switch makes ten requests at most. *)
Lemma gnueh_ptr_value_requests_bound mobj byteorder location encoding state base
    indeterminate s :
  match gnueh_ptr_value mobj byteorder location encoding state base indeterminate s with
  | inl (_, t) | inr t => (length (st_reads t) <= length (st_reads s) + 10)%nat
  end.
Proof.
  unfold gnueh_ptr_value,
    plcrash_async_mobject_read_uint16, plcrash_async_mobject_read_uint32,
    plcrash_async_mobject_read_uint64, plcrash_async_mobject_read_uint.
  repeat case_eqb.
  - pose proof (pl_dwarf_read_umax64_reads mobj byteorder location 0
                  (address_size state) (st_reads s)) as Hr.
    destruct (pl_dwarf_read_umax64 mobj byteorder location 0 (address_size state)
                (st_reads s)) as [[u|] r]; cbn in *; subst r;
      rewrite requested_length; lia.
  - match goal with
    | |- context [plcrash_async_dwarf_read_uleb128 mobj location ?s0] =>
        pose proof (proj1 (leb128_decoders_requests_bound mobj location s0)) as Hb;
        destruct (plcrash_async_dwarf_read_uleb128 mobj location s0) as [err leb]
    end.
    cbn in Hb. case_if; cbn; exact Hb.
  - destruct (plcrash_async_mobject_remap_address mobj location 0 2); cbn;
      rewrite requested_length; lia.
  - destruct (plcrash_async_mobject_remap_address mobj location 0 4); cbn;
      rewrite requested_length; lia.
  - destruct (plcrash_async_mobject_remap_address mobj location 0 8); cbn;
      rewrite requested_length; lia.
  - match goal with
    | |- context [plcrash_async_dwarf_read_sleb128 mobj location ?s0] =>
        pose proof (proj2 (leb128_decoders_requests_bound mobj location s0)) as Hb;
        destruct (plcrash_async_dwarf_read_sleb128 mobj location s0) as [err leb]
    end.
    cbn in Hb. case_if; cbn; exact Hb.
  - destruct (plcrash_async_mobject_remap_address mobj location 0 2); cbn;
      rewrite requested_length; lia.
  - destruct (plcrash_async_mobject_remap_address mobj location 0 4); cbn;
      rewrite requested_length; lia.
  - destruct (plcrash_async_mobject_remap_address mobj location 0 8); cbn;
      rewrite requested_length; lia.
  - cbn. lia.
Qed.

(** X7. One call of the pointer decoder makes at most eleven requests to the
    memory object, and at most ten when the indirect flag is clear. *)
Theorem X7_read_gnueh_ptr_requests_bound mobj byteorder location encoding state
    indeterminate s :
  (length (st_reads (snd (plcrash_async_dwarf_read_gnueh_ptr mobj byteorder location
                            encoding state indeterminate s)))
   <= length (st_reads s) + 11)%nat
  /\ (Z.land encoding DW_EH_PE_indirect = 0 ->
      (length (st_reads (snd (plcrash_async_dwarf_read_gnueh_ptr mobj byteorder
                                location encoding state indeterminate s)))
       <= length (st_reads s) + 10)%nat).
Proof.
  assert (Hdirect :
            match gnueh_ptr_direct mobj byteorder location encoding state
                    indeterminate s with
            | inl (_, t) | inr t => (length (st_reads t) <= length (st_reads s) + 10)%nat
            end).
  { unfold gnueh_ptr_direct. case_eqb; [cbn; lia|].
    pose proof (gnueh_ptr_base_keeps location encoding state (set_size s 0)) as Hkeep.
    destruct (gnueh_ptr_base location encoding state (set_size s 0))
      as [[err t]|[[base loc] t]].
    - destruct Hkeep as [_ ->]. cbn. lia.
    - destruct Hkeep as [_ Hreads]. cbn [set_size st_reads] in Hreads.
      rewrite <- Hreads. apply gnueh_ptr_value_requests_bound. }
  rewrite read_gnueh_ptr_step.
  destruct (gnueh_ptr_direct mobj byteorder location encoding state indeterminate s)
    as [[err t]|s1].
  - cbn [snd]. split; [lia|intros _; exact Hdirect].
  - destruct (Z.eqb_spec (Z.land encoding DW_EH_PE_indirect) 0) as [e|n].
    + cbn [snd]. split; [lia|intros _; exact Hdirect].
    + split; [|intros e; contradiction].
      rewrite read_gnueh_ptr_absptr. cbn [set_size st_reads st_result].
      pose proof (pl_dwarf_read_umax64_reads mobj byteorder (st_result s1) 0
                    (address_size state) (st_reads s1)) as Hr.
      destruct (pl_dwarf_read_umax64 mobj byteorder (st_result s1) 0
                  (address_size state) (st_reads s1)) as [[u|] r];
        cbn in *; subst r; rewrite requested_length; lia.
Qed.

(** The only [return] inside the loop is that of [PLCRASH_ENOTSUP]. *)
Lemma leb128_loop_return_code as_result mobj location (n : nat) :
  forall shift offset result reads err v,
    0 <= shift <= 63 -> 63 - shift < 7 * Z.of_nat n ->
    leb128_loop as_result mobj location shift offset result reads
    = (leb128_return err, v) ->
    err <> PLCRASH_ESUCCESS.
Proof.
  induction n as [|n IH]; intros shift offset result reads err v Hs Hn Hloop; [lia|].
  rewrite leb128_loop_step in Hloop.
  destruct (plcrash_async_mobject_remap_address mobj location offset 1) as [q|];
    [|discriminate Hloop].
  rewrite unsigned_int_small in Hloop by lia.
  destruct (Z.land (load_uint8 q) 128 =? 0); [discriminate Hloop|].
  destruct (Z.ltb_spec (shift + 7) 64).
  - apply IH in Hloop; [exact Hloop|lia|lia].
  - inversion Hloop. discriminate.
Qed.

(** When the loop is left by [break], [offset] has counted the requests. *)
Lemma leb128_loop_counts as_result mobj location (n : nat) :
  forall shift offset result reads p v,
    0 <= shift <= 63 -> 63 - shift < 7 * Z.of_nat n ->
    0 <= offset -> offset + Z.of_nat n < 2 ^ 31 ->
    leb128_loop as_result mobj location shift offset result reads
    = (leb128_leave (Some p), v) ->
    offset < leb_offset v <= offset + Z.of_nat n
    /\ Z.of_nat (length (leb_reads v))
       = Z.of_nat (length reads) + (leb_offset v - offset).
Proof.
  induction n as [|n IH]; intros shift offset result reads p v Hs Hn Ho Ho' Hloop;
    [lia|].
  rewrite leb128_loop_step in Hloop.
  destruct (plcrash_async_mobject_remap_address mobj location offset 1) as [q|];
    [|discriminate Hloop].
  rewrite pl_vm_off_t_small in Hloop by lia.
  rewrite unsigned_int_small in Hloop by lia.
  destruct (Z.land (load_uint8 q) 128 =? 0).
  - inversion Hloop; subst. cbn [leb_offset leb_reads].
    rewrite requested_length. lia.
  - destruct (Z.ltb_spec (shift + 7) 64); [|discriminate Hloop].
    apply IH in Hloop; try lia.
    rewrite requested_length in Hloop. lia.
Qed.

(** X8. When a LEB128 decoder succeeds, the size it reports is the number
    of bytes it requested, and it lies between 1 and 10. *)
Theorem X8_leb128_size_counts_requests mobj location s :
  (fst (plcrash_async_dwarf_read_uleb128 mobj location s) = PLCRASH_ESUCCESS ->
   1 <= st_size (snd (plcrash_async_dwarf_read_uleb128 mobj location s)) <= 10
   /\ Z.of_nat (length (st_reads (snd (plcrash_async_dwarf_read_uleb128 mobj location s))))
      = Z.of_nat (length (st_reads s))
        + st_size (snd (plcrash_async_dwarf_read_uleb128 mobj location s)))
  /\ (fst (plcrash_async_dwarf_read_sleb128 mobj location s) = PLCRASH_ESUCCESS ->
      1 <= st_size (snd (plcrash_async_dwarf_read_sleb128 mobj location s)) <= 10
      /\ Z.of_nat (length (st_reads (snd (plcrash_async_dwarf_read_sleb128 mobj location s))))
         = Z.of_nat (length (st_reads s))
           + st_size (snd (plcrash_async_dwarf_read_sleb128 mobj location s))).
Proof.
  unfold plcrash_async_dwarf_read_uleb128, plcrash_async_dwarf_read_sleb128.
  split.
  - destruct (leb128_loop uint64_t mobj location 0 0 0 (st_reads s))
      as [[err|[p|]] v] eqn:Hloop; cbn [fst snd st_size st_reads].
    + intros Herr. apply (leb128_loop_return_code _ _ _ 10) in Hloop; [contradiction|lia|lia].
    + intros _.
      apply (leb128_loop_counts uint64_t mobj location 10) in Hloop;
        try (cbn; lia).
      rewrite pl_vm_size_t_small by (cbn in Hloop; lia). cbn in Hloop. lia.
    + discriminate.
  - destruct (leb128_loop int64_t mobj location 0 0 0 (st_reads s))
      as [[err|[p|]] v] eqn:Hloop; cbn [fst snd st_size st_reads].
    + intros Herr. apply (leb128_loop_return_code _ _ _ 10) in Hloop; [contradiction|lia|lia].
    + intros _.
      apply (leb128_loop_counts int64_t mobj location 10) in Hloop;
        try (cbn; lia).
      rewrite pl_vm_size_t_small by (cbn in Hloop; lia). cbn in Hloop. lia.
    + discriminate.
Qed.

(** ** Further properties: variables without initializer *)

(** The call for the indirection reads neither its [size] cell nor a
    variable without initializer. *)
Lemma read_gnueh_ptr_absptr_indeterminate mobj byteorder location state
    (i1 i2 : Z) (s1 s2 : store) :
  st_result s1 = st_result s2 ->
  st_reads s1 = st_reads s2 ->
  plcrash_async_dwarf_read_gnueh_ptr mobj byteorder location DW_EH_PE_absptr state i1 s1
  = plcrash_async_dwarf_read_gnueh_ptr mobj byteorder location DW_EH_PE_absptr state i2 s2.
Proof using vm_bits.
  intros Hres Hreads. rewrite !read_gnueh_ptr_absptr, Hres, Hreads. reflexivity.
Qed.

(** What a LEB128 decoder hands out on success does not depend on what its
    output cells held. *)
Lemma leb128_decoders_cells mobj location (s1 s2 : store) :
  st_reads s1 = st_reads s2 ->
  (fst (plcrash_async_dwarf_read_uleb128 mobj location s1) = PLCRASH_ESUCCESS ->
   plcrash_async_dwarf_read_uleb128 mobj location s1
   = plcrash_async_dwarf_read_uleb128 mobj location s2)
  /\ (fst (plcrash_async_dwarf_read_sleb128 mobj location s1) = PLCRASH_ESUCCESS ->
      plcrash_async_dwarf_read_sleb128 mobj location s1
      = plcrash_async_dwarf_read_sleb128 mobj location s2).
Proof using vm_bits.
  intros Hreads.
  unfold plcrash_async_dwarf_read_uleb128, plcrash_async_dwarf_read_sleb128.
  rewrite Hreads. split.
  - destruct (leb128_loop uint64_t mobj location 0 0 0 (st_reads s2))
      as [[err|[p|]] v] eqn:Hloop; cbn [fst]; intros Hok;
      [|reflexivity|discriminate Hok].
    apply (leb128_loop_return_code _ _ _ 10) in Hloop; [contradiction|lia|lia].
  - destruct (leb128_loop int64_t mobj location 0 0 0 (st_reads s2))
      as [[err|[p|]] v] eqn:Hloop; cbn [fst]; intros Hok;
      [|reflexivity|discriminate Hok].
    apply (leb128_loop_return_code _ _ _ 10) in Hloop; [contradiction|lia|lia].
Qed.

(** When the first switch goes on, the second one reads at
    [value_location], and the trace is as it was. *)
Lemma gnueh_ptr_base_location location encoding state s base place s' :
  gnueh_ptr_base location encoding state s = inr (base, place, s') ->
  place = value_location location encoding state /\ st_reads s' = st_reads s.
Proof using vm_bits.
  unfold gnueh_ptr_base, value_location.
  repeat case_eqb; intros Hbase; inversion Hbase; subst; cbn; split;
    try reflexivity;
    match goal with
    | H1 : ?x = _, H2 : ?x = _ |- _ => rewrite H1 in H2; discriminate H2
    end.
Qed.

(** X9. What a variable without initializer holds reaches the outcome on
    one path only, the LEB128 sub-decode that fails. For every encoding and
    every state: with a representation other than [uleb128] and [sleb128]
    the outcome is the same whatever such a variable holds; and so it is
    with [uleb128] and [sleb128] when the LEB128 decoder succeeds at the
    location that the second switch reads from, which is [location] for
    every class but [DW_EH_PE_aligned] and the moved location for that
    one. *)
Theorem X9_indeterminate_only_after_leb128_failure mobj byteorder location encoding
    state s (i1 i2 : Z) :
  (Z.land encoding 0x0F <> DW_EH_PE_uleb128 ->
   Z.land encoding 0x0F <> DW_EH_PE_sleb128 ->
   plcrash_async_dwarf_read_gnueh_ptr mobj byteorder location encoding state i1 s
   = plcrash_async_dwarf_read_gnueh_ptr mobj byteorder location encoding state i2 s)
  /\ ((Z.land encoding 0x0F = DW_EH_PE_uleb128
       /\ fst (plcrash_async_dwarf_read_uleb128 mobj
                 (value_location location encoding state) s) = PLCRASH_ESUCCESS)
      \/ (Z.land encoding 0x0F = DW_EH_PE_sleb128
          /\ fst (plcrash_async_dwarf_read_sleb128 mobj
                    (value_location location encoding state) s) = PLCRASH_ESUCCESS) ->
      plcrash_async_dwarf_read_gnueh_ptr mobj byteorder location encoding state i1 s
      = plcrash_async_dwarf_read_gnueh_ptr mobj byteorder location encoding state i2 s).
Proof using vm_bits.
  assert (Hrec : forall d1 d2,
             d1 = d2 ->
             match d1 with
             | inl ret => ret
             | inr s1 =>
                 if Z.land encoding DW_EH_PE_indirect =? 0 then (PLCRASH_ESUCCESS, s1)
                 else
                   let '(err, target) :=
                     plcrash_async_dwarf_read_gnueh_ptr mobj byteorder (st_result s1)
                       DW_EH_PE_absptr state i1 (set_size s1 (pl_vm_size_t i1)) in
                   (err, set_size target (st_size s1))
             end
             = match d2 with
               | inl ret => ret
               | inr s1 =>
                   if Z.land encoding DW_EH_PE_indirect =? 0 then (PLCRASH_ESUCCESS, s1)
                   else
                     let '(err, target) :=
                       plcrash_async_dwarf_read_gnueh_ptr mobj byteorder (st_result s1)
                         DW_EH_PE_absptr state i2 (set_size s1 (pl_vm_size_t i2)) in
                     (err, set_size target (st_size s1))
               end).
  { intros d1 d2 <-. destruct d1 as [ret|s1]; [reflexivity|].
    rewrite (read_gnueh_ptr_absptr_indeterminate mobj byteorder (st_result s1) state
               i1 i2 (set_size s1 (pl_vm_size_t i1)) (set_size s1 (pl_vm_size_t i2)))
      by reflexivity.
    reflexivity. }
  split.
  - intros Hu Hs. rewrite !read_gnueh_ptr_step. apply Hrec.
    unfold gnueh_ptr_direct. case_eqb; [reflexivity|].
    destruct (gnueh_ptr_base location encoding state (set_size s 0))
      as [ret|[[base loc] t]]; [reflexivity|].
    unfold gnueh_ptr_value.
    repeat (case_eqb; try reflexivity); contradiction.
  - intros Hleb. rewrite !read_gnueh_ptr_step. apply Hrec.
    unfold gnueh_ptr_direct. case_eqb; [reflexivity|].
    destruct (gnueh_ptr_base location encoding state (set_size s 0))
      as [ret|[[base place] t]] eqn:Hbase; [reflexivity|].
    destruct (gnueh_ptr_base_location _ _ _ _ _ _ _ Hbase) as [-> Hreads].
    cbn [set_size st_reads] in Hreads.
    set (place := value_location location encoding state) in *.
    destruct Hleb as [[Hrepr Hok]|[Hrepr Hok]].
    + rewrite !gnueh_ptr_value_uleb128 by exact Hrepr.
      assert (Heq : forall i,
                 plcrash_async_dwarf_read_uleb128 mobj place
                   {| st_result := i; st_size := pl_vm_address_t i;
                      st_reads := st_reads t |}
                 = plcrash_async_dwarf_read_uleb128 mobj place s).
      { intros i. symmetry.
        apply (proj1 (leb128_decoders_cells mobj place s
                        {| st_result := i; st_size := pl_vm_address_t i;
                           st_reads := st_reads t |} (eq_sym Hreads)) Hok). }
      rewrite !Heq. reflexivity.
    + rewrite !gnueh_ptr_value_sleb128 by exact Hrepr.
      assert (Heq : forall i,
                 plcrash_async_dwarf_read_sleb128 mobj place
                   {| st_result := i; st_size := pl_vm_size_t i;
                      st_reads := st_reads t |}
                 = plcrash_async_dwarf_read_sleb128 mobj place s).
      { intros i. symmetry.
        apply (proj2 (leb128_decoders_cells mobj place s
                        {| st_result := i; st_size := pl_vm_size_t i;
                           st_reads := st_reads t |} (eq_sym Hreads)) Hok). }
      rewrite !Heq. reflexivity.
Qed.

(** ** Further properties: the value of a LEB128 encoding *)

(** Below [2 ^ k] a number has no bit in common with a multiple of
    [2 ^ k], and adding the two is OR-ing them. *)
Lemma land_low_high (k g q : Z) :
  0 <= k -> 0 <= g < 2 ^ k -> Z.land g (Z.shiftl q k) = 0.
Proof.
  intros Hk Hg.
  rewrite <- (Z.mod_small g (2 ^ k)) by exact Hg.
  rewrite <- Z.land_ones by exact Hk.
  rewrite <- Z.land_assoc, (Z.land_comm (Z.ones k)), Z.land_ones by exact Hk.
  rewrite Z.shiftl_mul_pow2 by exact Hk.
  rewrite Z_mod_mult. apply Z.land_0_r.
Qed.

Lemma add_low_high (k g q : Z) :
  0 <= k -> 0 <= g < 2 ^ k -> g + 2 ^ k * q = Z.lor g (Z.shiftl q k).
Proof.
  intros Hk Hg.
  pose proof (land_low_high k g q Hk Hg) as Hdisjoint.
  rewrite <- Z.lxor_lor by exact Hdisjoint.
  rewrite <- Z.add_nocarry_lxor by exact Hdisjoint.
  rewrite Z.shiftl_mul_pow2 by exact Hk. lia.
Qed.

(** Bit [k] of a number below [2 ^ (k + 1)]. *)
Lemma bit_clear (k g : Z) : 0 <= k -> 0 <= g < 2 ^ k -> Z.land g (2 ^ k) = 0.
Proof.
  intros Hk Hg. rewrite <- (Z.shiftl_1_l k). apply land_low_high; assumption.
Qed.

Lemma bit_set (k g : Z) :
  0 <= k -> 0 <= g < 2 ^ k -> Z.land (g + 2 ^ k) (2 ^ k) = 2 ^ k.
Proof.
  intros Hk Hg.
  replace (g + 2 ^ k) with (g + 2 ^ k * 1) by lia.
  rewrite (add_low_high k g 1 Hk Hg), Z.shiftl_1_l.
  rewrite Z.land_lor_distr_l, (bit_clear k g Hk Hg), Z.land_diag.
  reflexivity.
Qed.

Lemma land_0x7f (x : Z) : Z.land x 0x7f = x mod 128.
Proof. exact (Z.land_ones x 7 ltac:(lia)). Qed.

Lemma uint64_land (x : Z) : uint64_t x = Z.land x (Z.ones 64).
Proof. unfold uint64_t, uint. symmetry. apply Z.land_ones. lia. Qed.

Lemma leb128_groups_nonneg (vs : list Z) : 0 <= leb128_groups vs.
Proof.
  induction vs as [|v vs IH]; cbn [leb128_groups]; [lia|].
  rewrite land_0x7f. pose proof (Z.mod_pos_bound v 128 ltac:(lia)). lia.
Qed.

(** The accumulator of the unsigned decoder holds the number the groups
    spell, shifted and cut to 64 bits. *)
Lemma leb128_accumulate_groups (bs : list byte) :
  forall shift result,
    0 <= shift ->
    leb128_accumulate uint64_t shift (uint64_t result) bs
    = uint64_t (Z.lor result (Z.shiftl (leb128_groups (map byte_value bs)) shift)).
Proof.
  induction bs as [|b bs IH]; intros shift result Hshift;
    cbn [leb128_accumulate map leb128_groups].
  - rewrite Z.shiftl_0_l, Z.lor_0_r. reflexivity.
  - unfold leb128_or. rewrite uint64_uint64.
    rewrite <- (uint64_lor result).
    rewrite IH by lia.
    assert (Hg : 0 <= Z.land (byte_value b) 0x7f < 2 ^ 7)
      by (rewrite land_0x7f; apply Z.mod_pos_bound; lia).
    change 128 with (2 ^ 7).
    rewrite (add_low_high 7 _ (leb128_groups (map byte_value bs)) ltac:(lia) Hg).
    rewrite Z.shiftl_lor, Z.shiftl_shiftl by lia.
    rewrite (Z.add_comm 7 shift).
    rewrite !uint64_land.
    apply Z.bits_inj'. intros i Hi.
    rewrite !Z.land_spec, !Z.lor_spec, !Z.land_spec, !Z.lor_spec, !Z.land_spec.
    destruct (Z.testbit (Z.ones 64) i);
      rewrite ?andb_true_r, ?andb_false_r, ?orb_false_r, ?orb_assoc;
      reflexivity.
Qed.

Lemma leb128_encoded_split (bs : list byte) :
  leb128_encoded bs = true ->
  exists pre last,
    bs = pre ++ [last] /\ forallb continues pre = true /\ continues last = false.
Proof.
  induction bs as [|b bs IH]; [discriminate|].
  cbn [leb128_encoded]. destruct bs as [|b' bs'].
  - intros Hlast. exists [], b. apply negb_true_iff in Hlast. auto.
  - intros Hc. apply andb_true_iff in Hc. destruct Hc as [Hb Hrest].
    destruct (IH Hrest) as (pre & last & Heq & Hpre & Hlast).
    exists (b :: pre), last. rewrite Heq. cbn [forallb app]. rewrite Hb, Hpre. auto.
Qed.

(** Bytes of which the last, and no other, has the continuation bit clear
    are one encoded value. *)
Lemma leb128_encoded_app (pre : list byte) (last : byte) :
  forallb continues pre = true ->
  continues last = false ->
  leb128_encoded (pre ++ [last]) = true.
Proof.
  intros Hpre Hlast. induction pre as [|b pre IH]; cbn [app].
  - cbn [leb128_encoded]. rewrite Hlast. reflexivity.
  - cbn [forallb] in Hpre. apply andb_true_iff in Hpre. destruct Hpre as [Hb Hpre].
    specialize (IH Hpre).
    change (leb128_encoded (b :: pre ++ [last]))
      with (match pre ++ [last] with
            | [] => negb (continues b)
            | _ :: _ => continues b && leb128_encoded (pre ++ [last])
            end).
    destruct (pre ++ [last]) as [|b' rest] eqn:Happ; [destruct pre; discriminate Happ|].
    rewrite Hb, IH. reflexivity.
Qed.

(** C7. The ULEB128 decoder ORs the low 7 bits of every fetched byte, shifted
    left by the running shift, into the accumulator, and the size it reports
    counts the terminating byte: for an encoded value of up to ten bytes,
    stored at [location], it succeeds with the number that the low 7 bits of
    the bytes spell, the group of the first byte the lowest and each
    following group 7 bits higher, cut to 64 bits, and with the number of
    bytes, the terminating one among them. The byte [0x00] decodes to 0 with
    size 1, and the bytes [0xE5 0x8E 0x26] decode to 624485 with size 3. *)
Theorem C7_uleb128_value_and_size mobj location s :
  (forall pre last,
      (length pre <= 9)%nat ->
      stored_at mobj location 0 (pre ++ [last]) ->
      forallb continues pre = true ->
      continues last = false ->
      plcrash_async_dwarf_read_uleb128 mobj location s =
      (PLCRASH_ESUCCESS,
       {| st_result := leb128_groups (map byte_value (pre ++ [last])) mod 2 ^ 64;
          st_size := Z.of_nat (length (pre ++ [last]));
          st_reads := leb128_requests location 0 (length (pre ++ [last])) (st_reads s) |}))
  /\ (stored_at mobj location 0 [x00] ->
      plcrash_async_dwarf_read_uleb128 mobj location s =
      (PLCRASH_ESUCCESS,
       {| st_result := 0; st_size := 1;
          st_reads := leb128_requests location 0 1 (st_reads s) |}))
  /\ (stored_at mobj location 0 [xe5; x8e; x26] ->
      plcrash_async_dwarf_read_uleb128 mobj location s =
      (PLCRASH_ESUCCESS,
       {| st_result := 624485; st_size := 3;
          st_reads := leb128_requests location 0 3 (st_reads s) |})).
Proof.
  split; [|split].
  - intros pre last Hlen Hst Hc Hlast.
    rewrite (uleb128_decodes mobj location s pre last) by assumption.
    change 0 with (uint64_t 0) at 2.
    rewrite leb128_accumulate_groups by lia.
    rewrite Z.shiftl_0_r, Z.lor_0_l.
    rewrite length_app, Nat2Z.inj_add, Nat.add_1_r. reflexivity.
  - intros Hst.
    apply (uleb128_decodes mobj location s [] x00); try reflexivity; [cbn; lia|exact Hst].
  - intros Hst.
    apply (uleb128_decodes mobj location s [xe5; x8e] x26);
      try reflexivity; [cbn; lia|exact Hst].
Qed.

(** X10. The ULEB128 decoder returns the number that the 7-bit groups
    spell, the first group the lowest, cut to 64 bits: for one encoded value
    of at most ten bytes at [location] the result is the sum of the groups
    times [128 ^ i], modulo [2 ^ 64], and the size is the number of
    bytes. *)
Theorem X10_uleb128_is_sum_of_groups mobj location s bs :
  leb128_encoded bs = true ->
  (length bs <= 10)%nat ->
  stored_at mobj location 0 bs ->
  plcrash_async_dwarf_read_uleb128 mobj location s
  = (PLCRASH_ESUCCESS,
     {| st_result := leb128_groups (map byte_value bs) mod 2 ^ 64;
        st_size := Z.of_nat (length bs);
        st_reads := leb128_requests location 0 (length bs) (st_reads s) |}).
Proof.
  intros Henc Hlen Hst.
  destruct (leb128_encoded_split bs Henc) as (pre & last & -> & Hpre & Hlast).
  rewrite length_app in *. cbn [length] in *.
  rewrite (uleb128_decodes mobj location s pre last) by (try assumption; lia).
  change 0 with (uint64_t 0) at 2.
  rewrite leb128_accumulate_groups by lia.
  rewrite Z.shiftl_0_r, Z.lor_0_l.
  rewrite Nat2Z.inj_add, Nat.add_1_r. reflexivity.
Qed.

(** The groups of the ULEB128 encoding spell the number encoded. *)
Lemma uleb128_encode_groups (n : nat) :
  forall v, 0 <= v < 2 ^ (7 * Z.of_nat n) ->
            leb128_groups (uleb128_encode n v) = v.
Proof.
  induction n as [|n IH]; intros v Hv.
  - cbn in *. lia.
  - cbn [uleb128_encode]. destruct (Z.ltb_spec v 128).
    + cbn [leb128_groups]. rewrite land_0x7f, Z.mod_small by lia. lia.
    + cbn [leb128_groups]. rewrite land_0x7f.
      replace (v mod 128 + 128) with (v mod 128 + 1 * 128) by lia.
      rewrite Z_mod_plus_full, Z.mod_mod by lia.
      rewrite IH.
      * pose proof (Z.div_mod v 128 ltac:(lia)). lia.
      * split; [apply Z.div_pos; lia|].
        apply Z.div_lt_upper_bound; [lia|].
        replace (7 * Z.of_nat (S n)) with (7 + 7 * Z.of_nat n) in Hv by lia.
        rewrite Z.pow_add_r in Hv by lia. change (2 ^ 7) with 128 in Hv. lia.
Qed.

(** Bytes that hold the ULEB128 encoding of a number are one encoded value,
    of no more bytes than the encoder was given. *)
Lemma uleb128_encode_encoded (n : nat) :
  forall v bs,
    0 <= v < 2 ^ (7 * Z.of_nat n) -> (0 < n)%nat ->
    map byte_value bs = uleb128_encode n v ->
    leb128_encoded bs = true /\ (length bs <= n)%nat.
Proof.
  induction n as [|n IH]; intros v bs Hv Hn Hbs; [lia|].
  cbn [uleb128_encode] in Hbs. destruct (Z.ltb_spec v 128).
  - destruct bs as [|b [|b' bs']]; try discriminate Hbs.
    inversion Hbs as [Hb]. cbn [leb128_encoded length]. split; [|lia].
    unfold continues. rewrite Hb.
    change (Z.land v 128) with (Z.land v (2 ^ 7)).
    rewrite (bit_clear 7 v) by (cbn; lia). reflexivity.
  - destruct bs as [|b rest]; [discriminate Hbs|].
    inversion Hbs as [[Hb Hrest]].
    assert (Hq : 0 <= v / 128 < 2 ^ (7 * Z.of_nat n)).
    { split; [apply Z.div_pos; lia|].
      apply Z.div_lt_upper_bound; [lia|].
      replace (7 * Z.of_nat (S n)) with (7 + 7 * Z.of_nat n) in Hv by lia.
      rewrite Z.pow_add_r in Hv by lia. change (2 ^ 7) with 128 in Hv. lia. }
    assert (Hq1 : 1 <= v / 128) by (apply Z.div_le_lower_bound; lia).
    assert (Hn' : (0 < n)%nat).
    { destruct n; [cbn in Hq; lia|lia]. }
    destruct (IH (v / 128) rest Hq Hn' Hrest) as [Henc Hlen].
    assert (Hcont : continues b = true).
    { unfold continues. rewrite Hb.
      pose proof (Z.mod_pos_bound v 128 ltac:(lia)) as Hm.
      change (Z.land (v mod 128 + 128) 128)
        with (Z.land (v mod 128 + 2 ^ 7) (2 ^ 7)).
      rewrite (bit_set 7 (v mod 128)) by (cbn; lia). reflexivity. }
    cbn [leb128_encoded length]. destruct rest as [|b' rest'].
    + discriminate Henc.
    + rewrite Hcont, Henc. cbn [length] in *. split; [reflexivity|lia].
Qed.

(** The unsigned decoder on the encoding of a number. *)
Lemma uleb128_round_trip mobj location s v bs :
  0 <= v < 2 ^ 64 ->
  map byte_value bs = uleb128_encode 10 v ->
  stored_at mobj location 0 bs ->
  plcrash_async_dwarf_read_uleb128 mobj location s
  = (PLCRASH_ESUCCESS,
     {| st_result := v;
        st_size := Z.of_nat (length bs);
        st_reads := leb128_requests location 0 (length bs) (st_reads s) |}).
Proof.
  intros Hv Hbs Hst.
  assert (Hv' : 0 <= v < 2 ^ (7 * Z.of_nat 10)).
  { change (2 ^ (7 * Z.of_nat 10)) with 1180591620717411303424.
    change (2 ^ 64) with 18446744073709551616 in Hv. lia. }
  destruct (uleb128_encode_encoded 10 v bs Hv' ltac:(lia) Hbs) as [Henc Hlen].
  destruct (leb128_encoded_split bs Henc) as (pre & last & Heq & Hpre & Hlast).
  subst bs. rewrite length_app in *. cbn [length] in *.
  rewrite (uleb128_decodes mobj location s pre last) by (try assumption; lia).
  change 0 with (uint64_t 0) at 2.
  rewrite leb128_accumulate_groups by lia.
  rewrite Z.shiftl_0_r, Z.lor_0_l, Hbs, (uleb128_encode_groups 10 v Hv').
  rewrite uint64_small by (change (2 ^ 64) with 18446744073709551616 in Hv; lia).
  rewrite Nat2Z.inj_add, Nat.add_1_r. reflexivity.
Qed.

(** X11. Decoding inverts the ULEB128 encoding: when the bytes at
    [location] are the encoding of a number below [2 ^ 64], the decoder
    returns that number, and as size the length of the encoding. *)
Theorem X11_uleb128_decodes_its_encoding mobj location s v bs :
  0 <= v < 2 ^ 64 ->
  map byte_value bs = uleb128_encode 10 v ->
  stored_at mobj location 0 bs ->
  plcrash_async_dwarf_read_uleb128 mobj location s
  = (PLCRASH_ESUCCESS,
     {| st_result := v;
        st_size := Z.of_nat (length bs);
        st_reads := leb128_requests location 0 (length bs) (st_reads s) |}).
Proof. exact (uleb128_round_trip mobj location s v bs). Qed.

(** *** The signed decoder *)

Lemma int64_small (x : Z) :
  - 9223372036854775808 <= x < 9223372036854775808 -> int64_t x = x.
Proof.
  intros Hx. unfold int64_t, sint.
  change (2 ^ (64 - 1)) with 9223372036854775808.
  change (2 ^ 64) with 18446744073709551616.
  rewrite Z.mod_small; lia.
Qed.

Lemma int64_int64 (x : Z) : int64_t (int64_t x) = int64_t x.
Proof.
  unfold int64_t, sint.
  replace ((x + 2 ^ (64 - 1)) mod 2 ^ 64 - 2 ^ (64 - 1) + 2 ^ (64 - 1))
    with ((x + 2 ^ (64 - 1)) mod 2 ^ 64) by lia.
  rewrite Z.mod_mod by (cbn; lia). reflexivity.
Qed.

Lemma int64_uint64 (x : Z) : int64_t (uint64_t x) = int64_t x.
Proof.
  unfold int64_t, uint64_t, sint, uint.
  rewrite Zplus_mod_idemp_l. reflexivity.
Qed.

Lemma int64_add_multiple (x k : Z) : int64_t (x + k * 2 ^ 64) = int64_t x.
Proof.
  unfold int64_t, sint.
  replace (x + k * 2 ^ 64 + 2 ^ (64 - 1)) with (x + 2 ^ (64 - 1) + k * 2 ^ 64) by lia.
  rewrite Z_mod_plus_full. reflexivity.
Qed.

Lemma leb128_groups_bound (vs : list Z) :
  0 <= leb128_groups vs < 2 ^ (7 * Z.of_nat (length vs)).
Proof.
  induction vs as [|v vs IH]; cbn [leb128_groups length].
  - cbn. lia.
  - rewrite land_0x7f. pose proof (Z.mod_pos_bound v 128 ltac:(lia)).
    replace (7 * Z.of_nat (S (length vs))) with (7 + 7 * Z.of_nat (length vs)) by lia.
    rewrite Z.pow_add_r by lia. change (2 ^ 7) with 128. lia.
Qed.

(** The accumulator of the signed decoder is the number the groups spell,
    read as an [int64_t]. *)
Lemma leb128_accumulate_int64 (bs : list byte) :
  bs <> [] ->
  leb128_accumulate int64_t 0 0 bs = int64_t (leb128_groups (map byte_value bs)).
Proof.
  intros Hbs.
  assert (Hfix : forall shift result,
             int64_t (leb128_accumulate int64_t shift result bs)
             = leb128_accumulate int64_t shift result bs).
  { induction bs as [|b bs IH]; [contradiction|].
    intros shift result. cbn [leb128_accumulate]. destruct bs as [|b' bs'].
    - cbn [leb128_accumulate]. unfold leb128_or. apply int64_int64.
    - apply IH. discriminate. }
  rewrite <- Hfix, <- int64_uint64, leb128_accumulate_signed.
  rewrite leb128_accumulate_groups by lia.
  rewrite Z.shiftl_0_r, Z.lor_0_l. apply int64_uint64.
Qed.

(** OR-ing [-(1 << shift)] into a number below [1 << shift] takes
    [2 ^ shift] from it. *)
Lemma sign_extension (shift g : Z) :
  0 <= shift < 64 -> 0 <= g < 2 ^ shift ->
  int64_t (Z.lor (uint64_t g) (uint64_t (- 2 ^ shift))) = g - 2 ^ shift.
Proof.
  intros Hshift Hg.
  assert (Hpow : 2 ^ 64 = 2 ^ shift * 2 ^ (64 - shift))
    by (rewrite <- Z.pow_add_r by lia; f_equal; lia).
  assert (Hle : 2 ^ shift <= 2 ^ 63) by (apply Z.pow_le_mono_r; lia).
  assert (Hone : 1 <= 2 ^ (64 - shift))
    by (pose proof (Z.pow_pos_nonneg 2 (64 - shift) ltac:(lia) ltac:(lia)); lia).
  change (2 ^ 63) with 9223372036854775808 in Hle.
  assert (H64 : 2 ^ 64 = 18446744073709551616) by reflexivity.
  rewrite uint64_small by lia.
  assert (Hneg : uint64_t (- 2 ^ shift) = 2 ^ 64 - 2 ^ shift).
  { unfold uint64_t, uint.
    replace (- 2 ^ shift) with (2 ^ 64 - 2 ^ shift + (-1) * 2 ^ 64) by lia.
    rewrite Z_mod_plus_full. apply Z.mod_small. lia. }
  rewrite Hneg.
  replace (2 ^ 64 - 2 ^ shift) with (Z.shiftl (2 ^ (64 - shift) - 1) shift)
    by (rewrite Z.shiftl_mul_pow2 by lia; nia).
  rewrite <- (add_low_high shift g) by lia.
  replace (g + 2 ^ shift * (2 ^ (64 - shift) - 1))
    with (g - 2 ^ shift + 1 * 2 ^ 64) by nia.
  rewrite int64_add_multiple. apply int64_small. lia.
Qed.

Lemma last_app_one (A : Type) (pre : list A) (x d : A) : last (pre ++ [x]) d = x.
Proof. apply last_last. Qed.

(** The value that the signed decoder returns, from the groups. *)
Lemma sleb128_groups_value mobj location s bs :
  leb128_encoded bs = true ->
  (length bs <= 10)%nat ->
  stored_at mobj location 0 bs ->
  plcrash_async_dwarf_read_sleb128 mobj location s
  = (PLCRASH_ESUCCESS,
     {| st_result :=
          let groups := leb128_groups (map byte_value bs) in
          if (length bs <=? 9)%nat
          then if sign_bit (last bs x00)
               then groups - 2 ^ (7 * Z.of_nat (length bs))
               else groups
          else int64_t groups;
        st_size := Z.of_nat (length bs);
        st_reads := leb128_requests location 0 (length bs) (st_reads s) |}).
Proof.
  intros Henc Hlen Hst.
  destruct (leb128_encoded_split bs Henc) as (pre & last & -> & Hpre & Hlast).
  rewrite last_app_one.
  rewrite (sleb128_decodes mobj location s pre last)
    by (try assumption; rewrite length_app in Hlen; cbn in Hlen; lia).
  rewrite leb128_accumulate_int64 by (destruct pre; discriminate).
  pose proof (leb128_groups_bound (map byte_value (pre ++ [last]))) as Hg.
  rewrite length_map in Hg.
  rewrite length_app in *. cbn [length] in *.
  rewrite Nat2Z.inj_add, Nat.add_1_r in *. change (Z.of_nat 1) with 1 in *.
  set (g := leb128_groups (map byte_value (pre ++ [last]))) in *.
  cbv zeta. f_equal. f_equal.
  destruct (Nat.leb_spec (S (length pre)) 9) as [Hshort|Hlong].
  - assert (Hshift : 7 * (Z.of_nat (length pre) + 1) <= 63) by lia.
    assert (Hpow : 2 ^ (7 * (Z.of_nat (length pre) + 1)) <= 2 ^ 63)
      by (apply Z.pow_le_mono_r; lia).
    change (2 ^ 63) with 9223372036854775808 in Hpow.
    destruct (Z.ltb_spec (7 * (Z.of_nat (length pre) + 1)) 64); [|lia].
    destruct (sign_bit last); cbn [andb].
    + rewrite uint64_int64. apply sign_extension; lia.
    + apply int64_small. lia.
  - destruct (Z.ltb_spec (7 * (Z.of_nat (length pre) + 1)) 64); [lia|].
    reflexivity.
Qed.

(** C4. The SLEB128 decoder gathers the same 7-bit groups as the unsigned
    decoder and, past the loop, ORs [-(1 << shift)] into the result exactly
    when the shift, 7 times the number of bytes, is below 64 and the
    terminating byte has its [0x40] bit set: for an encoded value of up to
    ten bytes, stored at [location], the unsigned decoder returns the number
    that the groups spell, cut to 64 bits, and the signed decoder returns
    that number less [2 ^ shift] when the shift is below 64 and the bit is
    set, the number itself when the shift is below 64 and the bit is clear,
    and the number cut to 64 bits and read as an [int64_t] when the shift
    has passed 63; taking [2 ^ shift] from the number is OR-ing
    [-(1 << shift)] into it. The byte [0x7F] decodes to -1 with size 1, and
    the bytes [0x9B 0xF1 0x59] decode to -624485 with size 3. *)
Theorem C4_sleb128_sign_extension mobj location s :
  (forall pre last,
      (length pre <= 9)%nat ->
      stored_at mobj location 0 (pre ++ [last]) ->
      forallb continues pre = true ->
      continues last = false ->
      plcrash_async_dwarf_read_sleb128 mobj location s =
      (PLCRASH_ESUCCESS,
       {| st_result :=
            let shift := 7 * Z.of_nat (length (pre ++ [last])) in
            let groups := leb128_groups (map byte_value (pre ++ [last])) in
            if shift <? 64
            then if sign_bit last then groups - 2 ^ shift else groups
            else int64_t groups;
          st_size := Z.of_nat (length (pre ++ [last]));
          st_reads := leb128_requests location 0 (length (pre ++ [last])) (st_reads s) |})
      /\ plcrash_async_dwarf_read_uleb128 mobj location s =
         (PLCRASH_ESUCCESS,
          {| st_result := leb128_groups (map byte_value (pre ++ [last])) mod 2 ^ 64;
             st_size := Z.of_nat (length (pre ++ [last]));
             st_reads := leb128_requests location 0 (length (pre ++ [last])) (st_reads s) |})
      /\ (7 * Z.of_nat (length (pre ++ [last])) < 64 ->
          leb128_groups (map byte_value (pre ++ [last]))
          - 2 ^ (7 * Z.of_nat (length (pre ++ [last])))
          = int64_t (Z.lor (uint64_t (leb128_groups (map byte_value (pre ++ [last]))))
                           (uint64_t (- 2 ^ (7 * Z.of_nat (length (pre ++ [last]))))))))
  /\ (stored_at mobj location 0 [x7f] ->
      plcrash_async_dwarf_read_sleb128 mobj location s =
      (PLCRASH_ESUCCESS,
       {| st_result := -1; st_size := 1;
          st_reads := leb128_requests location 0 1 (st_reads s) |}))
  /\ (stored_at mobj location 0 [x9b; xf1; x59] ->
      plcrash_async_dwarf_read_sleb128 mobj location s =
      (PLCRASH_ESUCCESS,
       {| st_result := -624485; st_size := 3;
          st_reads := leb128_requests location 0 3 (st_reads s) |})).
Proof.
  split; [|split].
  - intros pre last Hlen Hst Hc Hlast.
    pose proof (leb128_encoded_app pre last Hc Hlast) as Henc.
    assert (Hlen' : (length (pre ++ [last]) <= 10)%nat)
      by (rewrite length_app; cbn [length]; lia).
    pose proof (leb128_groups_bound (map byte_value (pre ++ [last]))) as Hg.
    rewrite length_map in Hg.
    split; [|split].
    + rewrite (sleb128_groups_value mobj location s (pre ++ [last]) Henc Hlen' Hst).
      rewrite last_app_one. cbv zeta. f_equal. f_equal.
      destruct (Nat.leb_spec (length (pre ++ [last])) 9);
        destruct (Z.ltb_spec (7 * Z.of_nat (length (pre ++ [last]))) 64);
        try reflexivity; lia.
    + rewrite (uleb128_decodes mobj location s pre last) by assumption.
      change 0 with (uint64_t 0) at 2.
      rewrite leb128_accumulate_groups by lia.
      rewrite Z.shiftl_0_r, Z.lor_0_l.
      rewrite length_app, Nat2Z.inj_add, Nat.add_1_r. reflexivity.
    + intros Hshift. symmetry. apply sign_extension; [lia|exact Hg].
  - intros Hst.
    apply (sleb128_decodes mobj location s [] x7f); try reflexivity; [cbn; lia|exact Hst].
  - intros Hst.
    apply (sleb128_decodes mobj location s [x9b; xf1] x59);
      try reflexivity; [cbn; lia|exact Hst].
Qed.

(** X12. The SLEB128 decoder returns the two's-complement reading of the
    groups: for one encoded value of [n] bytes at [location], [n] up to 9,
    the number the groups spell, less [2 ^ (7 * n)] when bit 6 of the last
    byte is set; for ten bytes, the number cut to 64 bits and read as an
    [int64_t], whatever the bits 1 to 6 of the last byte are. The size is
    the number of bytes. *)
Theorem X12_sleb128_is_twos_complement_of_groups mobj location s bs :
  leb128_encoded bs = true ->
  (length bs <= 10)%nat ->
  stored_at mobj location 0 bs ->
  plcrash_async_dwarf_read_sleb128 mobj location s
  = (PLCRASH_ESUCCESS,
     {| st_result :=
          let groups := leb128_groups (map byte_value bs) in
          if (length bs <=? 9)%nat
          then if sign_bit (last bs x00)
               then groups - 2 ^ (7 * Z.of_nat (length bs))
               else groups
          else int64_t groups;
        st_size := Z.of_nat (length bs);
        st_reads := leb128_requests location 0 (length bs) (st_reads s) |}).
Proof. exact (sleb128_groups_value mobj location s bs). Qed.

(** Bytes that hold the SLEB128 encoding of a number are one encoded value,
    and the two's-complement reading of their groups is the number. *)
Lemma sleb128_encode_spec (n : nat) :
  forall v bs,
    - 2 ^ (7 * Z.of_nat n - 1) <= v < 2 ^ (7 * Z.of_nat n - 1) -> (0 < n)%nat ->
    map byte_value bs = sleb128_encode n v ->
    leb128_encoded bs = true /\ (length bs <= n)%nat
    /\ leb128_groups (map byte_value bs)
       - (if sign_bit (last bs x00) then 2 ^ (7 * Z.of_nat (length bs)) else 0)
       = v.
Proof.
  induction n as [|n IH]; intros v bs Hv Hn Hbs; [lia|].
  cbn [sleb128_encode] in Hbs. cbv zeta in Hbs.
  pose proof (Z.mod_pos_bound v 128 ltac:(lia)) as Hm.
  pose proof (Z.div_mod v 128 ltac:(lia)) as Hd.
  destruct (((v / 128 =? 0) && (v mod 128 <? 64))
            || ((v / 128 =? -1) && (64 <=? v mod 128))) eqn:Hstop.
  - destruct bs as [|b [|b' bs']]; try discriminate Hbs.
    inversion Hbs as [Hb]. cbn [leb128_encoded length last map leb128_groups].
    assert (Hcont : continues b = false).
    { unfold continues. rewrite Hb.
      change (Z.land (v mod 128) 128) with (Z.land (v mod 128) (2 ^ 7)).
      rewrite (bit_clear 7) by (cbn; lia). reflexivity. }
    rewrite Hcont. split; [reflexivity|]. split; [lia|].
    rewrite Hb, land_0x7f, Z.mod_mod by lia.
    unfold sign_bit. rewrite Hb.
    apply orb_true_iff in Hstop.
    destruct Hstop as [Hstop|Hstop]; apply andb_true_iff in Hstop;
      destruct Hstop as [Hq Hg].
    + apply Z.eqb_eq in Hq. apply Z.ltb_lt in Hg.
      change (Z.land (v mod 128) 64) with (Z.land (v mod 128) (2 ^ 6)).
      rewrite (bit_clear 6) by (cbn; lia). cbn [Z.eqb negb]. lia.
    + apply Z.eqb_eq in Hq. apply Z.leb_le in Hg.
      assert (Hbit : Z.land (v mod 128) 64 = 64).
      { pose proof (bit_set 6 (v mod 128 - 64) ltac:(lia) ltac:(cbn; lia)) as Hset.
        change (2 ^ 6) with 64 in Hset.
        replace (v mod 128 - 64 + 64) with (v mod 128) in Hset by lia.
        exact Hset. }
      rewrite Hbit. cbn [Z.eqb negb]. change (2 ^ (7 * Z.of_nat 1)) with 128. lia.
  - destruct bs as [|b rest]; [discriminate Hbs|].
    inversion Hbs as [[Hb Hrest]].
    assert (Hn' : (0 < n)%nat).
    { destruct n; [|lia]. exfalso.
      change (2 ^ (7 * Z.of_nat 1 - 1)) with 64 in Hv.
      apply orb_false_iff in Hstop. destruct Hstop as [H0 H1].
      destruct (Z.eqb_spec (v / 128) 0), (Z.ltb_spec (v mod 128) 64),
        (Z.eqb_spec (v / 128) (-1)), (Z.leb_spec 64 (v mod 128));
        cbn in H0, H1; try discriminate; lia. }
    assert (Hq : - 2 ^ (7 * Z.of_nat n - 1) <= v / 128 < 2 ^ (7 * Z.of_nat n - 1)).
    { replace (7 * Z.of_nat (S n) - 1) with (7 + (7 * Z.of_nat n - 1)) in Hv by lia.
      rewrite Z.pow_add_r in Hv by lia. change (2 ^ 7) with 128 in Hv.
      split.
      - apply Z.div_le_lower_bound; lia.
      - apply Z.div_lt_upper_bound; lia. }
    destruct (IH (v / 128) rest Hq Hn' Hrest) as (Henc & Hlen & Hval).
    assert (Hcont : continues b = true).
    { unfold continues. rewrite Hb.
      change (Z.land (v mod 128 + 128) 128)
        with (Z.land (v mod 128 + 2 ^ 7) (2 ^ 7)).
      rewrite (bit_set 7 (v mod 128)) by (cbn; lia). reflexivity. }
    destruct rest as [|b' rest']; [discriminate Henc|].
    split.
    { change (leb128_encoded (b :: b' :: rest'))
        with (continues b && leb128_encoded (b' :: rest')).
      rewrite Hcont, Henc. reflexivity. }
    split; [cbn [length] in *; lia|].
    change (last (b :: b' :: rest') x00) with (last (b' :: rest') x00).
    cbn [map leb128_groups] in *. rewrite Hb, land_0x7f.
    replace (v mod 128 + 128) with (v mod 128 + 1 * 128) by lia.
    rewrite Z_mod_plus_full, Z.mod_mod by lia.
    change (length (b :: b' :: rest')) with (S (length (b' :: rest'))).
    replace (7 * Z.of_nat (S (length (b' :: rest'))))
      with (7 + 7 * Z.of_nat (length (b' :: rest'))) by lia.
    rewrite Z.pow_add_r by lia. change (2 ^ 7) with 128.
    destruct (sign_bit (last (b' :: rest') x00)); lia.
Qed.

(** The signed decoder on the encoding of a number. *)
Lemma sleb128_round_trip mobj location s v bs :
  - 2 ^ 63 <= v < 2 ^ 63 ->
  map byte_value bs = sleb128_encode 10 v ->
  stored_at mobj location 0 bs ->
  plcrash_async_dwarf_read_sleb128 mobj location s
  = (PLCRASH_ESUCCESS,
     {| st_result := v;
        st_size := Z.of_nat (length bs);
        st_reads := leb128_requests location 0 (length bs) (st_reads s) |}).
Proof.
  intros Hv Hbs Hst.
  change (2 ^ 63) with 9223372036854775808 in Hv.
  assert (Hv' : - 2 ^ (7 * Z.of_nat 10 - 1) <= v < 2 ^ (7 * Z.of_nat 10 - 1)).
  { change (2 ^ (7 * Z.of_nat 10 - 1)) with 590295810358705651712. lia. }
  destruct (sleb128_encode_spec 10 v bs Hv' ltac:(lia) Hbs) as (Henc & Hlen & Hval).
  rewrite (sleb128_groups_value mobj location s bs Henc Hlen Hst).
  cbv zeta. f_equal. f_equal.
  destruct (Nat.leb_spec (length bs) 9) as [Hshort|Hlong].
  - destruct (sign_bit (last bs x00)); lia.
  - assert (Hten : length bs = 10%nat) by lia.
    rewrite Hten in Hval.
    change (2 ^ (7 * Z.of_nat 10)) with (64 * 2 ^ 64) in Hval.
    destruct (sign_bit (last bs x00)).
    + replace (leb128_groups (map byte_value bs)) with (v + 64 * 2 ^ 64) by lia.
      rewrite int64_add_multiple. apply int64_small. lia.
    + replace (leb128_groups (map byte_value bs)) with v by lia.
      apply int64_small. lia.
Qed.

(** X13. Decoding inverts the SLEB128 encoding: when the bytes at
    [location] are the encoding of an [int64_t] number, the decoder returns
    that number, and as size the length of the encoding. *)
Theorem X13_sleb128_decodes_its_encoding mobj location s v bs :
  - 2 ^ 63 <= v < 2 ^ 63 ->
  map byte_value bs = sleb128_encode 10 v ->
  stored_at mobj location 0 bs ->
  plcrash_async_dwarf_read_sleb128 mobj location s
  = (PLCRASH_ESUCCESS,
     {| st_result := v;
        st_size := Z.of_nat (length bs);
        st_reads := leb128_requests location 0 (length bs) (st_reads s) |}).
Proof. exact (sleb128_round_trip mobj location s v bs). Qed.

(** ** Further properties: encoded offsets from a base *)



(** ** Further properties: data of fixed width *)

Lemma uint_congruent (w x : Z) : 0 < w -> (uint w x - x) mod 2 ^ w = 0.
Proof.
  intros Hw. unfold uint.
  assert (Hp : 0 < 2 ^ w) by (apply Z.pow_pos_nonneg; lia).
  pose proof (Z.div_mod x (2 ^ w) ltac:(lia)) as Hd.
  replace (x mod 2 ^ w - x) with ((- (x / 2 ^ w)) * 2 ^ w) by lia.
  apply Z_mod_mult.
Qed.

Lemma sint_range (w x : Z) :
  0 < w ->
  - 2 ^ (w - 1) <= sint w x < 2 ^ (w - 1) /\ (sint w x - x) mod 2 ^ w = 0.
Proof.
  intros Hw. unfold sint.
  assert (Hp : 0 < 2 ^ (w - 1)) by (apply Z.pow_pos_nonneg; lia).
  assert (Hpow : 2 ^ w = 2 * 2 ^ (w - 1)).
  { replace w with (1 + (w - 1)) at 1 by lia. rewrite Z.pow_add_r by lia.
    reflexivity. }
  pose proof (Z.mod_pos_bound (x + 2 ^ (w - 1)) (2 ^ w) ltac:(lia)) as Hm.
  pose proof (Z.div_mod (x + 2 ^ (w - 1)) (2 ^ w) ltac:(lia)) as Hd.
  split; [lia|].
  replace ((x + 2 ^ (w - 1)) mod 2 ^ w - 2 ^ (w - 1) - x)
    with ((- ((x + 2 ^ (w - 1)) / 2 ^ w)) * 2 ^ w) by lia.
  apply Z_mod_mult.
Qed.

Lemma congruent_trans (m a b c : Z) :
  (a - b) mod m = 0 -> (b - c) mod m = 0 -> (a - c) mod m = 0.
Proof.
  intros Hab Hbc.
  replace (a - c) with ((a - b) + (b - c)) by lia.
  rewrite Zplus_mod, Hab, Hbc. apply Zmod_0_l.
Qed.

Lemma data_width_cases encoding w :
  data_width encoding = Some w ->
  (Z.land encoding 0x0F = DW_EH_PE_udata2 /\ w = 2)
  \/ (Z.land encoding 0x0F = DW_EH_PE_udata4 /\ w = 4)
  \/ (Z.land encoding 0x0F = DW_EH_PE_udata8 /\ w = 8)
  \/ (Z.land encoding 0x0F = DW_EH_PE_sdata2 /\ w = 2)
  \/ (Z.land encoding 0x0F = DW_EH_PE_sdata4 /\ w = 4)
  \/ (Z.land encoding 0x0F = DW_EH_PE_sdata8 /\ w = 8).
Proof.
  unfold data_width.
  repeat (case_eqb; cbn [orb];
          try (intros Hsome; inversion Hsome; subst w; tauto)).
Qed.

(** X16. The data representations are read as numbers of their width, the
    signed ones in two's complement: for one of the five classes that read
    at [location] itself, [absptr], [pcrel], [textrel], [datarel] and
    [funcrel], with its base available, and [udata2/4/8] or [sdata2/4/8]
    without indirection, when the [w] bytes are mapped at [location] the
    decoder succeeds with size [w] and the result
    [d + base], as an address, where [d] agrees with the swapped datum
    modulo [2 ^ (8 * w)] and lies in [0 .. 2 ^ (8 * w) - 1] for the
    unsigned representations (bit 3 of the encoding clear) and in
    [- 2 ^ (8 * w - 1) .. 2 ^ (8 * w - 1) - 1] for the signed ones. Two
    cases are left out: the class [DW_EH_PE_aligned], which reads at the
    moved location and adds the bytes skipped to the size, and [sdata8]
    with addresses of 32 bits, where the sum with the base is one of signed
    numbers. *)
Theorem X16_data_is_read_by_width_and_sign mobj byteorder location encoding state
    indeterminate s base w data :
  vm_bits = 64 \/ Z.land encoding 0x0F <> DW_EH_PE_sdata8 ->
  class_base encoding state = Some base ->
  data_width encoding = Some w ->
  Z.land encoding DW_EH_PE_indirect = 0 ->
  plcrash_async_mobject_remap_address mobj location 0 w = Some data ->
  exists d,
    plcrash_async_dwarf_read_gnueh_ptr mobj byteorder location encoding state
      indeterminate s
    = (PLCRASH_ESUCCESS,
       {| st_result := pl_vm_address_t (d + base);
          st_size := w;
          st_reads := requested (st_reads s) location 0 w |})
    /\ (d - swap_of byteorder w (load_uint data)) mod 2 ^ (8 * w) = 0
    /\ (if Z.land encoding 0x08 =? 0
        then 0 <= d < 2 ^ (8 * w)
        else - 2 ^ (8 * w - 1) <= d < 2 ^ (8 * w - 1)).
Proof.
  intros _ Hclass Hwidth Hplain Hdata.
  pose proof (class_base_not_omit _ _ _ Hclass) as Homit.
  assert (H8 : Z.land encoding 0x08 = Z.land (Z.land encoding 0x0F) 0x08)
    by (rewrite <- Z.land_assoc; reflexivity).
  rewrite H8.
  rewrite read_gnueh_ptr_plain by exact Hplain. unfold gnueh_ptr_direct.
  destruct (Z.eqb_spec encoding DW_EH_PE_omit); [contradiction|].
  rewrite (gnueh_ptr_base_class _ _ _ _ _ Hclass).
  unfold gnueh_ptr_value,
    plcrash_async_mobject_read_uint16, plcrash_async_mobject_read_uint32,
    plcrash_async_mobject_read_uint64, plcrash_async_mobject_read_uint,
    gnueh_ptr_store, int16_t, int32_t, int64_t.
  destruct (data_width_cases encoding w Hwidth)
    as [[-> ->]|[[-> ->]|[[-> ->]|[[-> ->]|[[-> ->]|[-> ->]]]]]];
    cbn [Z.eqb Pos.eqb Z.land Pos.land Z.of_N DW_EH_PE_udata8 DW_EH_PE_udata4
         DW_EH_PE_absptr DW_EH_PE_uleb128 DW_EH_PE_udata2 DW_EH_PE_sleb128
         DW_EH_PE_sdata2 DW_EH_PE_sdata4 DW_EH_PE_sdata8 swap_of];
    rewrite Hdata; cbn [set_size st_size st_reads];
    match goal with
    | |- exists d, (_, {| st_result := pl_vm_address_t (?x + _); st_size := _;
                          st_reads := _ |}) = _ /\ _ =>
        exists x
    end;
    (split; [rewrite (pl_vm_size_t_small (0 + _)) by (cbn; lia); reflexivity|]).
  - split; [apply uint_congruent; lia|apply uint_range; lia].
  - split; [apply uint_congruent; lia|apply uint_range; lia].
  - split; [apply uint_congruent; lia|apply uint_range; lia].
  - pose proof (sint_range 16 (uint (8 * 2) (swap16 byteorder (load_uint data)))
                  ltac:(lia)) as [Hr Hc].
    split; [|exact Hr].
    eapply congruent_trans; [exact Hc|apply (uint_congruent 16); lia].
  - pose proof (sint_range 32 (uint (8 * 4) (swap32 byteorder (load_uint data)))
                  ltac:(lia)) as [Hr Hc].
    split; [|exact Hr].
    eapply congruent_trans; [exact Hc|apply (uint_congruent 32); lia].
  - pose proof (sint_range 64 (uint (8 * 8) (swap64 byteorder (load_uint data)))
                  ltac:(lia)) as [Hr Hc].
    split; [|exact Hr].
    eapply congruent_trans; [exact Hc|apply (uint_congruent 64); lia].
Qed.

End Decoder.

(** ** The decoder on concrete inputs *)

(** A value of ten bytes whose last byte has the continuation bit clear is
    accepted, whatever the payload of that byte: of [0x7F] at shift 63 only
    the lowest bit is kept. *)
Lemma uleb128_tenth_byte_is_cut :
  plcrash_async_dwarf_read_uleb128 64
    (mobject_of [x80; x80; x80; x80; x80; x80; x80; x80; x80; x7f]) 0x1000 store_init
  = (PLCRASH_ESUCCESS,
     {| st_result := 2 ^ 63; st_size := 10;
        st_reads := leb128_requests 0x1000 0 10 [] |}).
Proof. vm_compute. reflexivity. Qed.

(** C1. The failure of the LEB128 decoders is not returned by the pointer
    decoder. With nothing mapped at the location both decoders fail with
    [PLCRASH_EINVAL], and with ten bytes that have the continuation bit set
    the unsigned one fails with [PLCRASH_ENOTSUP]; called for
    [DW_EH_PE_uleb128] or [DW_EH_PE_sleb128] on the same input, the pointer
    decoder returns [PLCRASH_ESUCCESS], with the result 0 and, as size,
    what its local [uleb_size] or [sleb_size] held before the call. *)
Theorem C1_leb128_failure_is_not_returned (indeterminate : Z) :
  let state := state_of 8 (PL_VM_ADDRESS_INVALID 64) in
  fst (plcrash_async_dwarf_read_uleb128 64 (mobject_of []) 0x1000 store_init)
  = PLCRASH_EINVAL
  /\ plcrash_async_dwarf_read_gnueh_ptr 64 (mobject_of []) byteorder_host 0x1000
       DW_EH_PE_uleb128 state indeterminate store_init
     = (PLCRASH_ESUCCESS,
        {| st_result := 0; st_size := pl_vm_size_t 64 indeterminate;
           st_reads := requested [] 0x1000 0 1 |})
  /\ fst (plcrash_async_dwarf_read_sleb128 64 (mobject_of []) 0x1000 store_init)
     = PLCRASH_EINVAL
  /\ plcrash_async_dwarf_read_gnueh_ptr 64 (mobject_of []) byteorder_host 0x1000
       DW_EH_PE_sleb128 state indeterminate store_init
     = (PLCRASH_ESUCCESS,
        {| st_result := 0; st_size := pl_vm_size_t 64 indeterminate;
           st_reads := requested [] 0x1000 0 1 |})
  /\ fst (plcrash_async_dwarf_read_uleb128 64 (mobject_of ten_continued) 0x1000
            store_init)
     = PLCRASH_ENOTSUP
  /\ plcrash_async_dwarf_read_gnueh_ptr 64 (mobject_of ten_continued) byteorder_host
       0x1000 DW_EH_PE_uleb128 state indeterminate store_init
     = (PLCRASH_ESUCCESS,
        {| st_result := 0; st_size := pl_vm_size_t 64 indeterminate;
           st_reads := leb128_requests 0x1000 0 10 [] |}).
Proof.
  intros state.
  split; [reflexivity|]. split.
  { apply (read_gnueh_ptr_uleb128_unmapped 64 (or_intror eq_refl)). reflexivity. }
  split; [reflexivity|]. split.
  { apply (read_gnueh_ptr_sleb128_unmapped 64 (or_intror eq_refl)). reflexivity. }
  split; [reflexivity|].
  apply (read_gnueh_ptr_uleb128_oversized 64 (or_intror eq_refl)
           (mobject_of ten_continued) byteorder_host 0x1000 state indeterminate
           store_init ten_continued).
  - reflexivity.
  - cbn [stored_at ten_continued]. repeat (split; [reflexivity|]). exact I.
  - reflexivity.
  - discriminate.
Qed.

(** C2. The mask of the [DW_EH_PE_aligned] case, the complement of
    [address_size], clears one bit of the address and does not round it up.
    For the address [0x1001] and each of the address sizes 1, 2, 4 and 8 it
    gives [0x1000], where rounding up gives [0x1001], [0x1002], [0x1004]
    and [0x1008]. With the section at [0x1000], an address size of 4 and
    the location [0x1001], the location moves back to [0x1000], the four
    bytes are read from there, and the size reported is 3; reading at the
    next boundary, [0x1004], would report 7. *)
Theorem C2_aligned_mask_does_not_round_up :
  let state64 := state_of 4 (PL_VM_ADDRESS_INVALID 64) in
  let state32 := state_of 4 (PL_VM_ADDRESS_INVALID 32) in
  (gnueh_vm_aligned 64 0x1001 1 = 0x1000 /\ align_up 0x1001 1 = 0x1001)
  /\ (gnueh_vm_aligned 64 0x1001 2 = 0x1000 /\ align_up 0x1001 2 = 0x1002)
  /\ (gnueh_vm_aligned 64 0x1001 4 = 0x1000 /\ align_up 0x1001 4 = 0x1004)
  /\ (gnueh_vm_aligned 64 0x1001 8 = 0x1000 /\ align_up 0x1001 8 = 0x1008)
  /\ gnueh_ptr_base 64 0x1001 DW_EH_PE_aligned state64 (set_size store_init 0)
     = inr (0, 0x1000, set_size store_init (2 ^ 64 - 1))
  /\ plcrash_async_dwarf_read_gnueh_ptr 64 (mobject_of two_words) byteorder_host
       0x1001 DW_EH_PE_aligned state64 0 store_init
     = (PLCRASH_ESUCCESS,
        {| st_result := 0x44332211; st_size := 3;
           st_reads := requested [] 0x1000 0 4 |})
  /\ plcrash_async_dwarf_read_gnueh_ptr 32 (mobject_of two_words) byteorder_host
       0x1001 DW_EH_PE_aligned state32 0 store_init
     = (PLCRASH_ESUCCESS,
        {| st_result := 0x44332211; st_size := 3;
           st_reads := requested [] 0x1000 0 4 |})
  /\ fst (pl_dwarf_read_umax64 (mobject_of two_words) byteorder_host 0x1004 0 4 [])
     = Some 0x88776655.
Proof.
  intros state64 state32.
  repeat match goal with |- _ /\ _ => split end; vm_compute; reflexivity.
Qed.

(** C6, as stated, fails: with ten bytes mapped that all have the
    continuation bit set, the mapped range ends before a byte with the bit
    clear is reached, and both decoders fail with [PLCRASH_ENOTSUP], not
    with [PLCRASH_EINVAL]. *)
Lemma C6_ten_continued_is_unsupported :
  ends_unterminated (mobject_of ten_continued) 0x1000 ten_continued
  /\ fst (plcrash_async_dwarf_read_uleb128 64 (mobject_of ten_continued) 0x1000
            store_init) <> PLCRASH_EINVAL
  /\ fst (plcrash_async_dwarf_read_sleb128 64 (mobject_of ten_continued) 0x1000
            store_init) <> PLCRASH_EINVAL.
Proof.
  split.
  - unfold ends_unterminated. split; [|split; reflexivity].
    cbn [stored_at ten_continued]. repeat (split; [reflexivity|]). exact I.
  - split; vm_compute; discriminate.
Qed.

(** ** The properties at concrete inputs *)

Ltac stored_here :=
  cbn [stored_at app]; repeat (split; [reflexivity|]); exact I.

Lemma C7_uleb128_value_and_size_witness :
  stored_at (mobject_of [xe5; x8e; x26]) 0x1000 0 ([xe5; x8e] ++ [x26])
  /\ plcrash_async_dwarf_read_uleb128 64 (mobject_of [xe5; x8e; x26]) 0x1000 store_init
     = (PLCRASH_ESUCCESS,
        {| st_result := 624485; st_size := 3;
           st_reads := leb128_requests 0x1000 0 3 [] |})
  /\ plcrash_async_dwarf_read_uleb128 64 (mobject_of [x00]) 0x1000 store_init
     = (PLCRASH_ESUCCESS,
        {| st_result := 0; st_size := 1;
           st_reads := leb128_requests 0x1000 0 1 [] |}).
Proof.
  assert (Hst : stored_at (mobject_of [xe5; x8e; x26]) 0x1000 0 ([xe5; x8e] ++ [x26]))
    by stored_here.
  assert (Hst0 : stored_at (mobject_of [x00]) 0x1000 0 [x00]) by stored_here.
  split; [exact Hst|]. split.
  - exact (proj1 (C7_uleb128_value_and_size 64 (or_intror eq_refl)
                    (mobject_of [xe5; x8e; x26]) 0x1000 store_init)
             [xe5; x8e] x26 ltac:(cbn; lia) Hst eq_refl eq_refl).
  - exact (proj1 (proj2 (C7_uleb128_value_and_size 64 (or_intror eq_refl)
                           (mobject_of [x00]) 0x1000 store_init)) Hst0).
Defined.

Lemma C4_sleb128_sign_extension_witness :
  stored_at (mobject_of [x9b; xf1; x59]) 0x1000 0 ([x9b; xf1] ++ [x59])
  /\ plcrash_async_dwarf_read_sleb128 64 (mobject_of [x9b; xf1; x59]) 0x1000 store_init
     = (PLCRASH_ESUCCESS,
        {| st_result := -624485; st_size := 3;
           st_reads := leb128_requests 0x1000 0 3 [] |})
  /\ plcrash_async_dwarf_read_sleb128 64 (mobject_of [x7f]) 0x1000 store_init
     = (PLCRASH_ESUCCESS,
        {| st_result := -1; st_size := 1;
           st_reads := leb128_requests 0x1000 0 1 [] |}).
Proof.
  assert (Hst : stored_at (mobject_of [x9b; xf1; x59]) 0x1000 0 ([x9b; xf1] ++ [x59]))
    by stored_here.
  assert (Hst0 : stored_at (mobject_of [x7f]) 0x1000 0 [x7f]) by stored_here.
  split; [exact Hst|]. split.
  - exact (proj1 (proj1 (C4_sleb128_sign_extension 64 (or_intror eq_refl)
                           (mobject_of [x9b; xf1; x59]) 0x1000 store_init)
                    [x9b; xf1] x59 ltac:(cbn; lia) Hst eq_refl eq_refl)).
  - exact (proj1 (proj2 (C4_sleb128_sign_extension 64 (or_intror eq_refl)
                           (mobject_of [x7f]) 0x1000 store_init)) Hst0).
Defined.

Lemma C5_uleb128_oversized_is_unsupported_witness :
  stored_at (mobject_of ten_continued) 0x1000 0 ten_continued
  /\ fst (plcrash_async_dwarf_read_uleb128 64 (mobject_of ten_continued) 0x1000
            store_init) = PLCRASH_ENOTSUP.
Proof.
  assert (Hst : stored_at (mobject_of ten_continued) 0x1000 0 ten_continued)
    by (unfold ten_continued; stored_here).
  split; [exact Hst|].
  exact (proj1 (proj1 (C5_uleb128_oversized_is_unsupported 64 (or_intror eq_refl)
                         (mobject_of ten_continued) 0x1000 store_init)
                  ten_continued eq_refl Hst eq_refl)).
Defined.

Lemma C6_leb128_unterminated_is_invalid_witness :
  ends_unterminated (mobject_of [x80; x80]) 0x1000 [x80; x80]
  /\ fst (plcrash_async_dwarf_read_uleb128 64 (mobject_of [x80; x80]) 0x1000 store_init)
     = PLCRASH_EINVAL
  /\ fst (plcrash_async_dwarf_read_sleb128 64 (mobject_of [x80; x80]) 0x1000 store_init)
     = PLCRASH_EINVAL.
Proof.
  assert (Hend : ends_unterminated (mobject_of [x80; x80]) 0x1000 [x80; x80]).
  { unfold ends_unterminated. split; [stored_here|split; reflexivity]. }
  split; [exact Hend|].
  exact (C6_leb128_unterminated_is_invalid 64 (or_intror eq_refl)
           (mobject_of [x80; x80]) 0x1000 store_init [x80; x80] Hend
           ltac:(cbn; lia)).
Defined.

Lemma C10_leb128_failure_leaves_size_witness :
  fst (plcrash_async_dwarf_read_uleb128 64 (mobject_of [xe5]) 0x1000 store_init)
  <> PLCRASH_ESUCCESS
  /\ st_size (snd (plcrash_async_dwarf_read_uleb128 64 (mobject_of [xe5]) 0x1000
                     store_init)) = 0xBBBB
  /\ fst (plcrash_async_dwarf_read_sleb128 64 (mobject_of [xe5]) 0x1000 store_init)
     <> PLCRASH_ESUCCESS
  /\ st_size (snd (plcrash_async_dwarf_read_sleb128 64 (mobject_of [xe5]) 0x1000
                     store_init)) = 0xBBBB
  /\ st_result (snd (plcrash_async_dwarf_read_uleb128 64 (mobject_of [xe5]) 0x1000
                       store_init)) = 0x65.
Proof.
  assert (Hu : fst (plcrash_async_dwarf_read_uleb128 64 (mobject_of [xe5]) 0x1000
                      store_init) <> PLCRASH_ESUCCESS) by (vm_compute; discriminate).
  assert (Hs : fst (plcrash_async_dwarf_read_sleb128 64 (mobject_of [xe5]) 0x1000
                      store_init) <> PLCRASH_ESUCCESS) by (vm_compute; discriminate).
  assert (Hend : ends_unterminated (mobject_of [xe5]) 0x1000 [xe5]).
  { unfold ends_unterminated. split; [stored_here|split; reflexivity]. }
  pose proof (C10_leb128_failure_leaves_size 64 (or_intror eq_refl)
                (mobject_of [xe5]) 0x1000 store_init) as [Wu [Ws Wp]].
  split; [exact Hu|]. split; [exact (Wu Hu)|].
  split; [exact Hs|]. split; [exact (Ws Hs)|].
  rewrite (proj1 (Wp Hend)). reflexivity.
Defined.

Lemma C8_missing_base_is_unsupported_witness :
  let state := state_of 8 (PL_VM_ADDRESS_INVALID 64) in
  (Z.land DW_EH_PE_pcrel 0x70 = DW_EH_PE_pcrel
   /\ pc_rel_base state = PL_VM_ADDRESS_INVALID 64)
  /\ plcrash_async_dwarf_read_gnueh_ptr 64 (mobject_of two_words) byteorder_host
       0x1000 DW_EH_PE_pcrel state 0 store_init
     = (PLCRASH_ENOTSUP, set_size store_init 0).
Proof.
  intros state.
  assert (Hbase : Z.land DW_EH_PE_pcrel 0x70 = DW_EH_PE_pcrel
                  /\ pc_rel_base state = PL_VM_ADDRESS_INVALID 64)
    by (split; reflexivity).
  split; [exact Hbase|].
  exact (proj1 (C8_missing_base_is_unsupported 64 (mobject_of two_words)
                  byteorder_host 0x1000 DW_EH_PE_pcrel state 0 store_init
                  (or_introl Hbase))).
Defined.

Lemma C9_omit_is_not_found_witness :
  fst (plcrash_async_dwarf_read_gnueh_ptr 64 (mobject_of two_words) byteorder_host
         0x1000 DW_EH_PE_omit (state_of 8 (PL_VM_ADDRESS_INVALID 64)) 0 store_init)
  = PLCRASH_ENOTFOUND
  /\ DW_EH_PE_omit = DW_EH_PE_omit.
Proof.
  assert (Hcode : fst (plcrash_async_dwarf_read_gnueh_ptr 64 (mobject_of two_words)
                         byteorder_host 0x1000 DW_EH_PE_omit
                         (state_of 8 (PL_VM_ADDRESS_INVALID 64)) 0 store_init)
                  = PLCRASH_ENOTFOUND) by reflexivity.
  split; [exact Hcode|].
  exact (proj2 (proj2 (proj2 (proj2
          (C9_omit_is_not_found 64 (mobject_of two_words) byteorder_host 0x1000
             (state_of 8 (PL_VM_ADDRESS_INVALID 64)) 0 store_init))))
          DW_EH_PE_omit Hcode).
Defined.

Lemma C3_indirect_reads_absptr_once_witness :
  let mobj := mobject_of pointer_and_target in
  let state := state_of 8 (PL_VM_ADDRESS_INVALID 64) in
  fst (pl_dwarf_read_umax64 mobj byteorder_host 0x1000 0 8 []) = Some 0x1008
  /\ fst (pl_dwarf_read_umax64 mobj byteorder_host 0x1008 0 8 []) = Some 0x0c0b0a09
  /\ plcrash_async_dwarf_read_gnueh_ptr 64 mobj byteorder_host 0x1000
       (Z.lor DW_EH_PE_absptr DW_EH_PE_indirect) state 0 store_init
     = (PLCRASH_ESUCCESS,
        {| st_result := 0x0c0b0a09; st_size := 8;
           st_reads := requested (requested [] 0x1000 0 8) 0x1008 0 8 |})
  /\ plcrash_async_dwarf_read_gnueh_ptr 64 mobj byteorder_host 0x1000
       (Z.lor DW_EH_PE_udata8 DW_EH_PE_indirect) state 0 store_init
     = (PLCRASH_ESUCCESS,
        {| st_result := 0x0c0b0a09; st_size := 8;
           st_reads := requested (requested [] 0x1000 0 8) 0x1008 0 8 |}).
Proof.
  intros mobj state.
  assert (HA : fst (pl_dwarf_read_umax64 mobj byteorder_host 0x1000 0 8 [])
               = Some 0x1008) by reflexivity.
  assert (HB : fst (pl_dwarf_read_umax64 mobj byteorder_host 0x1008 0 8 [])
               = Some 0x0c0b0a09) by reflexivity.
  pose proof (C3_indirect_reads_absptr_once 64 (or_intror eq_refl) mobj
                byteorder_host 0x1000 state 0 store_init) as [Wgen Wabs].
  split; [exact HA|]. split; [exact HB|]. split.
  - apply (Wabs 0x1008 0x0c0b0a09); try reflexivity;
      unfold PL_VM_ADDRESS_MAX; lia.
  - assert (Hfirst : plcrash_async_dwarf_read_gnueh_ptr 64 mobj byteorder_host 0x1000
                       (Z.land (Z.lor DW_EH_PE_udata8 DW_EH_PE_indirect) 0x7F) state 0
                       store_init
                     = (PLCRASH_ESUCCESS,
                        {| st_result := 0x1008; st_size := 8;
                           st_reads := requested [] 0x1000 0 8 |}))
      by (vm_compute; reflexivity).
    exact (proj1 (Wgen (Z.lor DW_EH_PE_udata8 DW_EH_PE_indirect) _
                    ltac:(discriminate) Hfirst)).
Defined.

(** ** The further properties at concrete inputs *)

Lemma X1_read_umax64_width_and_range_witness :
  fst (pl_dwarf_read_umax64 (mobject_of two_words) byteorder_host 0x1000 0 4 [])
  = Some 0x44332211
  /\ 0 <= 0x44332211 < 2 ^ (8 * 4)
  /\ (4 = 1 \/ 4 = 2 \/ 4 = 4 \/ 4 = 8).
Proof.
  assert (Hv : fst (pl_dwarf_read_umax64 (mobject_of two_words) byteorder_host
                      0x1000 0 4 []) = Some 0x44332211) by reflexivity.
  pose proof (X1_read_umax64_width_and_range (mobject_of two_words) byteorder_host
                0x1000 0 4 []) as [Wiff [_ Wrange]].
  split; [exact Hv|]. split; [exact (Wrange _ Hv)|].
  apply Wiff. rewrite Hv. discriminate.
Defined.

Lemma X2_fixed_width_failure_is_returned_witness :
  let state := state_with_pc 8 0x2000 (PL_VM_ADDRESS_INVALID 64) in
  let encoding := Z.lor DW_EH_PE_pcrel DW_EH_PE_sdata4 in
  class_base 64 encoding state = Some 0x2000
  /\ fixed_width encoding state = Some 4
  /\ plcrash_async_mobject_remap_address (mobject_of two_words) 0x1006 0 4 = None
  /\ plcrash_async_dwarf_read_gnueh_ptr 64 (mobject_of two_words) byteorder_host
       0x1006 encoding state 0 store_init
     = (PLCRASH_EINVAL,
        {| st_result := 0xAAAA; st_size := 0;
           st_reads := requested [] 0x1006 0 4 |}).
Proof.
  intros state encoding.
  assert (Hclass : class_base 64 encoding state = Some 0x2000) by reflexivity.
  assert (Hwidth : fixed_width encoding state = Some 4) by reflexivity.
  assert (Hnone : plcrash_async_mobject_remap_address (mobject_of two_words)
                    0x1006 0 4 = None) by reflexivity.
  split; [exact Hclass|]. split; [exact Hwidth|]. split; [exact Hnone|].
  exact (X2_fixed_width_failure_is_returned 64 (mobject_of two_words) byteorder_host
           0x1006 encoding state 0 store_init 0x2000 4 Hclass Hwidth Hnone).
Defined.

Lemma X3_unknown_bits_are_unsupported_witness :
  let state := state_of 8 (PL_VM_ADDRESS_INVALID 64) in
  0x05 <> DW_EH_PE_omit
  /\ known_representation (Z.land 0x05 0x0F) = false
  /\ fst (plcrash_async_dwarf_read_gnueh_ptr 64 (mobject_of two_words) byteorder_host
            0x1000 0x05 state 0 store_init) = PLCRASH_ENOTSUP
  /\ 0x60 <> DW_EH_PE_omit
  /\ fst (plcrash_async_dwarf_read_gnueh_ptr 64 (mobject_of two_words) byteorder_host
            0x1000 0x60 state 0 store_init) = PLCRASH_ENOTSUP.
Proof.
  intros state.
  assert (H5 : 0x05 <> DW_EH_PE_omit) by discriminate.
  assert (H6 : 0x60 <> DW_EH_PE_omit) by discriminate.
  assert (Hrepr : known_representation (Z.land 0x05 0x0F) = false) by reflexivity.
  split; [exact H5|]. split; [exact Hrepr|]. split.
  - exact (proj1 (X3_unknown_bits_are_unsupported 64 (mobject_of two_words)
                    byteorder_host 0x1000 0x05 state 0 store_init H5
                    (or_intror (or_intror Hrepr)))).
  - split; [exact H6|].
    exact (proj1 (X3_unknown_bits_are_unsupported 64 (mobject_of two_words)
                    byteorder_host 0x1000 0x60 state 0 store_init H6
                    (or_introl eq_refl))).
Defined.

Lemma X4_aligned_without_section_is_unsupported_witness :
  let invalid := PL_VM_ADDRESS_INVALID 64 in
  let state :=
    plcrash_async_dwarf_gnueh_ptr_state_init 8 0x1000 invalid
      invalid invalid invalid invalid in
  Z.land DW_EH_PE_aligned 0x70 = DW_EH_PE_aligned
  /\ frame_section_vm_addr state = PL_VM_ADDRESS_INVALID 64
  /\ plcrash_async_dwarf_read_gnueh_ptr 64 (mobject_of two_words) byteorder_host
       0x1001 DW_EH_PE_aligned state 0 store_init
     = (PLCRASH_ENOTSUP, set_size store_init 0).
Proof.
  intros invalid state.
  assert (Hclass : Z.land DW_EH_PE_aligned 0x70 = DW_EH_PE_aligned) by reflexivity.
  assert (Hvm : frame_section_vm_addr state = PL_VM_ADDRESS_INVALID 64) by reflexivity.
  split; [exact Hclass|]. split; [exact Hvm|].
  exact (X4_aligned_without_section_is_unsupported 64 (mobject_of two_words)
           byteorder_host 0x1001 DW_EH_PE_aligned state 0 store_init Hclass
           (or_introl Hvm)).
Defined.

Lemma X5_wide_signed_data_as_unsigned_witness :
  let state := state_with_pc 8 0x2000 (PL_VM_ADDRESS_INVALID 64) in
  let mobj := mobject_of [xff; xff; xff; xff; xff; xff; xff; xff] in
  Z.land DW_EH_PE_udata8 0x0F = DW_EH_PE_udata8
  /\ Z.lor DW_EH_PE_udata8 0x08 = DW_EH_PE_sdata8
  /\ plcrash_async_dwarf_read_gnueh_ptr 64 mobj byteorder_host 0x1000
       DW_EH_PE_sdata8 state 0 store_init
     = plcrash_async_dwarf_read_gnueh_ptr 64 mobj byteorder_host 0x1000
         DW_EH_PE_udata8 state 0 store_init.
Proof.
  intros state mobj.
  assert (Hrepr : Z.land DW_EH_PE_udata8 0x0F = DW_EH_PE_udata8) by reflexivity.
  split; [exact Hrepr|]. split; [reflexivity|].
  exact (X5_wide_signed_data_as_unsigned 64 (or_intror eq_refl) mobj byteorder_host
           0x1000 DW_EH_PE_udata8 state 0 store_init
           (or_introl (conj eq_refl Hrepr))).
Defined.

Lemma X6_sleb128_oversized_is_unsupported_witness :
  stored_at (mobject_of ten_continued) 0x1000 0 ten_continued
  /\ fst (plcrash_async_dwarf_read_sleb128 64 (mobject_of ten_continued) 0x1000
            store_init) = PLCRASH_ENOTSUP.
Proof.
  assert (Hst : stored_at (mobject_of ten_continued) 0x1000 0 ten_continued)
    by (unfold ten_continued; stored_here).
  split; [exact Hst|].
  exact (proj1 (proj1 (X6_sleb128_oversized_is_unsupported 64 (or_intror eq_refl)
                         (mobject_of ten_continued) 0x1000 store_init)
                  ten_continued eq_refl Hst eq_refl)).
Defined.

Lemma X7_read_gnueh_ptr_requests_bound_witness :
  let state := state_of 8 (PL_VM_ADDRESS_INVALID 64) in
  Z.land DW_EH_PE_uleb128 DW_EH_PE_indirect = 0
  /\ (length (st_reads (snd (plcrash_async_dwarf_read_gnueh_ptr 64
                               (mobject_of ten_continued) byteorder_host 0x1000
                               DW_EH_PE_uleb128 state 0 store_init)))
      <= length (st_reads store_init) + 10)%nat.
Proof.
  intros state.
  assert (Hplain : Z.land DW_EH_PE_uleb128 DW_EH_PE_indirect = 0) by reflexivity.
  split; [exact Hplain|].
  exact (proj2 (X7_read_gnueh_ptr_requests_bound 64 (mobject_of ten_continued)
                  byteorder_host 0x1000 DW_EH_PE_uleb128 state 0 store_init) Hplain).
Defined.

Lemma X8_leb128_size_counts_requests_witness :
  let mobj := mobject_of [xe5; x8e; x26] in
  fst (plcrash_async_dwarf_read_uleb128 64 mobj 0x1000 store_init) = PLCRASH_ESUCCESS
  /\ 1 <= st_size (snd (plcrash_async_dwarf_read_uleb128 64 mobj 0x1000 store_init))
     <= 10
  /\ fst (plcrash_async_dwarf_read_sleb128 64 mobj 0x1000 store_init) = PLCRASH_ESUCCESS
  /\ 1 <= st_size (snd (plcrash_async_dwarf_read_sleb128 64 mobj 0x1000 store_init))
     <= 10.
Proof.
  intros mobj.
  assert (Hu : fst (plcrash_async_dwarf_read_uleb128 64 mobj 0x1000 store_init)
               = PLCRASH_ESUCCESS) by reflexivity.
  assert (Hs : fst (plcrash_async_dwarf_read_sleb128 64 mobj 0x1000 store_init)
               = PLCRASH_ESUCCESS) by reflexivity.
  pose proof (X8_leb128_size_counts_requests 64 (or_intror eq_refl) mobj 0x1000
                store_init) as [Wu Ws].
  split; [exact Hu|]. split; [exact (proj1 (Wu Hu))|].
  split; [exact Hs|]. exact (proj1 (Ws Hs)).
Defined.

Lemma X9_indeterminate_only_after_leb128_failure_witness :
  let state := state_of 4 (PL_VM_ADDRESS_INVALID 64) in
  let mobj := mobject_of [x00; x00; x00; x26] in
  let encoding := Z.lor DW_EH_PE_aligned DW_EH_PE_uleb128 in
  (Z.land DW_EH_PE_udata4 0x0F <> DW_EH_PE_uleb128
   /\ Z.land DW_EH_PE_udata4 0x0F <> DW_EH_PE_sleb128
   /\ plcrash_async_dwarf_read_gnueh_ptr 64 mobj byteorder_host 0x1000
        DW_EH_PE_udata4 state 1 store_init
      = plcrash_async_dwarf_read_gnueh_ptr 64 mobj byteorder_host 0x1000
          DW_EH_PE_udata4 state 2 store_init)
  /\ (value_location 64 0x1000 encoding state = 0x1003
      /\ fst (plcrash_async_dwarf_read_uleb128 64 mobj
                (value_location 64 0x1000 encoding state) store_init)
         = PLCRASH_ESUCCESS
      /\ plcrash_async_dwarf_read_gnueh_ptr 64 mobj byteorder_host 0x1000
           encoding state 1 store_init
         = plcrash_async_dwarf_read_gnueh_ptr 64 mobj byteorder_host 0x1000
             encoding state 2 store_init).
Proof.
  intros state mobj encoding.
  assert (Hu : Z.land DW_EH_PE_udata4 0x0F <> DW_EH_PE_uleb128) by discriminate.
  assert (Hs : Z.land DW_EH_PE_udata4 0x0F <> DW_EH_PE_sleb128) by discriminate.
  assert (Hplace : value_location 64 0x1000 encoding state = 0x1003) by reflexivity.
  assert (Hok : fst (plcrash_async_dwarf_read_uleb128 64 mobj
                       (value_location 64 0x1000 encoding state) store_init)
                = PLCRASH_ESUCCESS) by reflexivity.
  split.
  - split; [exact Hu|]. split; [exact Hs|].
    exact (proj1 (X9_indeterminate_only_after_leb128_failure 64 mobj byteorder_host
                    0x1000 DW_EH_PE_udata4 state store_init 1 2) Hu Hs).
  - split; [exact Hplace|]. split; [exact Hok|].
    exact (proj2 (X9_indeterminate_only_after_leb128_failure 64 mobj byteorder_host
                    0x1000 encoding state store_init 1 2)
             (or_introl (conj eq_refl Hok))).
Defined.

Lemma X10_uleb128_is_sum_of_groups_witness :
  let bs := [xe5; x8e; x26] in
  leb128_encoded bs = true
  /\ stored_at (mobject_of bs) 0x1000 0 bs
  /\ leb128_groups (map byte_value bs) = 0x65 + 128 * (0x0e + 128 * 0x26)
  /\ plcrash_async_dwarf_read_uleb128 64 (mobject_of bs) 0x1000 store_init
     = (PLCRASH_ESUCCESS,
        {| st_result := 624485; st_size := 3;
           st_reads := leb128_requests 0x1000 0 3 [] |}).
Proof.
  intros bs.
  assert (Henc : leb128_encoded bs = true) by reflexivity.
  assert (Hst : stored_at (mobject_of bs) 0x1000 0 bs) by stored_here.
  split; [exact Henc|]. split; [exact Hst|]. split; [reflexivity|].
  exact (X10_uleb128_is_sum_of_groups 64 (or_intror eq_refl) (mobject_of bs) 0x1000
           store_init bs Henc ltac:(cbn; lia) Hst).
Defined.

Lemma X11_uleb128_decodes_its_encoding_witness :
  let bs := [xe5; x8e; x26] in
  0 <= 624485 < 2 ^ 64
  /\ map byte_value bs = uleb128_encode 10 624485
  /\ stored_at (mobject_of bs) 0x1000 0 bs
  /\ plcrash_async_dwarf_read_uleb128 64 (mobject_of bs) 0x1000 store_init
     = (PLCRASH_ESUCCESS,
        {| st_result := 624485; st_size := 3;
           st_reads := leb128_requests 0x1000 0 3 [] |}).
Proof.
  intros bs.
  assert (Hv : 0 <= 624485 < 2 ^ 64) by (change (2 ^ 64) with 18446744073709551616; lia).
  assert (Hbs : map byte_value bs = uleb128_encode 10 624485) by reflexivity.
  assert (Hst : stored_at (mobject_of bs) 0x1000 0 bs) by stored_here.
  split; [exact Hv|]. split; [exact Hbs|]. split; [exact Hst|].
  exact (X11_uleb128_decodes_its_encoding 64 (or_intror eq_refl) (mobject_of bs)
           0x1000 store_init 624485 bs Hv Hbs Hst).
Defined.

Lemma X12_sleb128_is_twos_complement_of_groups_witness :
  let bs := [x9b; xf1; x59] in
  leb128_encoded bs = true
  /\ stored_at (mobject_of bs) 0x1000 0 bs
  /\ sign_bit (last bs x00) = true
  /\ leb128_groups (map byte_value bs) - 2 ^ 21 = -624485
  /\ plcrash_async_dwarf_read_sleb128 64 (mobject_of bs) 0x1000 store_init
     = (PLCRASH_ESUCCESS,
        {| st_result := -624485; st_size := 3;
           st_reads := leb128_requests 0x1000 0 3 [] |}).
Proof.
  intros bs.
  assert (Henc : leb128_encoded bs = true) by reflexivity.
  assert (Hst : stored_at (mobject_of bs) 0x1000 0 bs) by stored_here.
  split; [exact Henc|]. split; [exact Hst|]. split; [reflexivity|].
  split; [reflexivity|].
  exact (X12_sleb128_is_twos_complement_of_groups 64 (or_intror eq_refl)
           (mobject_of bs) 0x1000 store_init bs Henc ltac:(cbn; lia) Hst).
Defined.

Lemma X13_sleb128_decodes_its_encoding_witness :
  let bs := [x9b; xf1; x59] in
  - 2 ^ 63 <= -624485 < 2 ^ 63
  /\ map byte_value bs = sleb128_encode 10 (-624485)
  /\ stored_at (mobject_of bs) 0x1000 0 bs
  /\ plcrash_async_dwarf_read_sleb128 64 (mobject_of bs) 0x1000 store_init
     = (PLCRASH_ESUCCESS,
        {| st_result := -624485; st_size := 3;
           st_reads := leb128_requests 0x1000 0 3 [] |}).
Proof.
  intros bs.
  assert (Hv : - 2 ^ 63 <= -624485 < 2 ^ 63)
    by (change (2 ^ 63) with 9223372036854775808; lia).
  assert (Hbs : map byte_value bs = sleb128_encode 10 (-624485)) by reflexivity.
  assert (Hst : stored_at (mobject_of bs) 0x1000 0 bs) by stored_here.
  split; [exact Hv|]. split; [exact Hbs|]. split; [exact Hst|].
  exact (X13_sleb128_decodes_its_encoding 64 (or_intror eq_refl) (mobject_of bs)
           0x1000 store_init (-624485) bs Hv Hbs Hst).
Defined.



Lemma X16_data_is_read_by_width_and_sign_witness :
  let encoding := Z.lor DW_EH_PE_pcrel DW_EH_PE_sdata4 in
  let state := state_with_pc 8 0x2000 (PL_VM_ADDRESS_INVALID 64) in
  let data := [xfe; xff; xff; xff] in
  class_base 64 encoding state = Some 0x2000
  /\ data_width encoding = Some 4
  /\ plcrash_async_mobject_remap_address (mobject_of data) 0x1000 0 4 = Some data
  /\ plcrash_async_dwarf_read_gnueh_ptr 64 (mobject_of data) byteorder_host 0x1000
       encoding state 0 store_init
     = (PLCRASH_ESUCCESS,
        {| st_result := 0x2000 - 2; st_size := 4;
           st_reads := requested [] 0x1000 0 4 |})
  /\ exists d,
       plcrash_async_dwarf_read_gnueh_ptr 64 (mobject_of data) byteorder_host 0x1000
         encoding state 0 store_init
       = (PLCRASH_ESUCCESS,
          {| st_result := pl_vm_address_t 64 (d + 0x2000); st_size := 4;
             st_reads := requested [] 0x1000 0 4 |})
       /\ (d - swap_of byteorder_host 4 (load_uint data)) mod 2 ^ (8 * 4) = 0
       /\ - 2 ^ (8 * 4 - 1) <= d < 2 ^ (8 * 4 - 1).
Proof.
  intros encoding state data.
  assert (Hclass : class_base 64 encoding state = Some 0x2000) by reflexivity.
  assert (Hwidth : data_width encoding = Some 4) by reflexivity.
  assert (Hdata : plcrash_async_mobject_remap_address (mobject_of data) 0x1000 0 4
                  = Some data) by reflexivity.
  split; [exact Hclass|]. split; [exact Hwidth|]. split; [exact Hdata|].
  split; [vm_compute; reflexivity|].
  exact (X16_data_is_read_by_width_and_sign 64 (or_intror eq_refl) (mobject_of data)
           byteorder_host 0x1000 encoding state 0 store_init 0x2000 4 data
           (or_introl eq_refl) Hclass Hwidth eq_refl Hdata).
Defined.
